(** * sync_gateway, package db: the changes writer (changes_writer.go)

    A shallow embedding of the channel-log writer: the fan-out coordinator
    ([addToChangeLogs], [getChangeLog]), the per-channel writer (its mailbox
    drain [readChange_] / [readChanges_], [massageChanges]) and the update
    callback that [addToChangeLog_] hands to the bucket's [WriteUpdate].

    Go values are modelled as follows.
    - [int] is a 64-bit two's complement integer: a [Z] with the wrap-around
      of every subtraction, negation and increment written out ([GoInt]).
    - [[]byte] is a [list byte]; where the source tests a slice against
      [nil] it is an [option (list byte)].
    - A pointer that the source tests against [nil] is an [option].
    - A call that does not return is [None] in the [option] monad: a panic
      (nil dereference, slice bounds out of range) and, in the two mailbox
      readers, a receive that blocks for ever.
    - Package-level variables of package db that are declared in another file
      ([MaxChangeLogLength], [AlwaysCompactChangeLog],
      [EnableStarChannelLog]) are the fields of [Config]. *)

From Stdlib Require Import ZArith Lia.
From stdpp Require Import base option list gmap strings sorting.

Local Open Scope Z_scope.

Abbreviation bytes := (list Byte.byte).

(** ** Go's [int] *)

Module GoInt.
Definition min_int : Z := - 2 ^ 63.
Definition max_int : Z := 2 ^ 63 - 1.

Definition wrap (z : Z) : Z := (z + 2 ^ 63) `mod` 2 ^ 64 - 2 ^ 63.

Definition add (a b : Z) : Z := wrap (a + b).
Definition sub (a b : Z) : Z := wrap (a - b).
Definition neg (a : Z) : Z := wrap (- a).
(** [a / b] on ints truncates toward zero.  The quotient of two ints is an
    int unless [a] is [min_int] and [b] is [-1]; the writer divides by 5000
    and by 2 only. *)
Definition quot (a b : Z) : Z := a ÷ b.

Definition len {A} (l : list A) : Z := Z.of_nat (length l).

(** [s[k:]]: panics unless [0 <= k <= len(s)]. *)
Definition sliceFrom {A} (k : Z) (s : list A) : option (list A) :=
  if bool_decide (0 ≤ k ≤ len s) then Some (drop (Z.to_nat k) s) else None.
End GoInt.

(** ** Package channels

    The package is a collaborator of the changes writer: the log entry, the
    in-memory log and the byte encoding. *)

Module channels.

(** Modelled from the spec: the declaration of [LogEntry] is not part of
    changes_writer.go.  One change record: an unsigned 64-bit [Sequence], a
    [DocID], a [RevID] and a [Flags] bitmask (an unsigned 8-bit value). *)
Record LogEntry := mkLogEntry {
  Sequence : Z;
  DocID : string;
  RevID : string;
  Flags : Z
}.

Definition setFlags (e : LogEntry) (f : Z) : LogEntry :=
  mkLogEntry (Sequence e) (DocID e) (RevID e) f.

(** Modelled from the spec: the in-memory log [ChangeLog] and its
    operations [Add], [FilterAfter] and [Len] are not part of
    changes_writer.go.  The log is the sequence of its entries; [Add]
    appends one entry, [FilterAfter] keeps only the entries with
    [Sequence > after], [Len] counts the entries. *)
Record ChangeLog := mkChangeLog { Entries : list LogEntry }.

Definition emptyLog : ChangeLog := mkChangeLog [].

Definition Add (log : ChangeLog) (e : LogEntry) : ChangeLog :=
  mkChangeLog (Entries log ++ [e]).

Definition FilterAfter (after : Z) (log : ChangeLog) : ChangeLog :=
  mkChangeLog (filter (λ e, after < Sequence e) (Entries log)).

Definition Len (log : ChangeLog) : Z := GoInt.len (Entries log).

(** The byte encoding of package channels, as changes_writer.go calls it.
    A writer argument [w] is modelled by the bytes the call writes to it.
    - [LogEntry_Encode e parent]: [e.Encode(w, parent)];
    - [ChangeLog_Encode log]: [log.Encode(w)];
    - [DecodeChangeLog raw]: [channels.DecodeChangeLog(bytes.NewReader(raw))];
    - [TruncateEncodedChangeLog raw maxLength minLength]: the count the
      call returns and the bytes it writes. *)
Class Codec := {
  LogEntry_Encode : LogEntry → string → bytes;
  ChangeLog_Encode : ChangeLog → bytes;
  DecodeChangeLog : bytes → ChangeLog;
  TruncateEncodedChangeLog : bytes → Z → Z → Z * bytes
}.

End channels.

Import channels.

(** ** Package walrus and the bucket

    [base.Bucket] is an interface; the writer uses its [AddRaw] and
    [WriteUpdate], the reader its [GetRaw]. *)

Module walrus.

(** [walrus.WriteOptions]; changes_writer.go names only [walrus.Raw]. *)
Variant WriteOptions := Raw.

Section store.
Context {error : Type}.

(** Modelled from the spec: the store behind [base.Bucket] is not part of
    this repository's sources.  [AddRaw] succeeds only if the key does not
    already exist (seed-if-absent). *)
Definition AddRaw (s : gmap string bytes) (k : string) (exp : Z) (v : bytes)
  : (bool * option error) * gmap string bytes :=
  match s !! k with
  | Some _ => ((false, None), s)
  | None => ((true, None), <[k:=v]> s)
  end.

(** Modelled from the spec: [WriteUpdate] (the spec's AtomicUpdate)
    invokes the callback on the current value of the document (empty if
    there is none), possibly repeatedly, under the store's optimistic
    retry loop, until a conflict-free write succeeds or a terminal error
    occurs.  Each element of [conflicts] is one lost race: the value
    [other] another writer stored between the read and the write. [final]
    is the last attempt with the store's verdict on it.  Each invocation
    gets what it reads from its environment as [o] (for the changes writer
    the random source).  An error from the callback aborts the update. *)
Fixpoint WriteUpdate {St O : Type}
    (cb : St → bytes → O → option (St * (bytes * WriteOptions * option error)))
    (k : string) (s : gmap string bytes) (st : St)
    (conflicts : list (O * bytes)) (final : O * option error)
  : option (gmap string bytes * St * option error) :=
  let cur := default [] (s !! k) in
  match conflicts with
  | [] =>
      '(st', (v, _, err)) ← cb st cur final.1;
      match err with
      | Some e => Some (s, st', Some e)
      | None =>
          match final.2 with
          | Some e => Some (s, st', Some e)
          | None => Some (<[k:=v]> s, st', None)
          end
      end
  | (o, other) :: rest =>
      '(st', (_, _, err)) ← cb st cur o;
      match err with
      | Some e => Some (s, st', Some e)
      | None => WriteUpdate cb k (<[k:=other]> s) st' rest final
      end
  end.
End store.

End walrus.

Import walrus.

(** ** Package db *)

(** The package-level variables declared outside changes_writer.go. *)
Record Config := mkConfig {
  MaxChangeLogLength : Z;
  AlwaysCompactChangeLog : bool;
  EnableStarChannelLog : bool
}.

(** Max number of pending writes *)
Definition kChannelLogWriterQueueLength : Z := 1000.

Record changeEntry := mkChangeEntry {
  logEntry : option LogEntry;
  parentRevID : string;
  replacementLog : option ChangeLog
}.

Definition kChannelLogDocType : string := "log2".
Definition kChannelLogKeyPrefix : string := "_sync:" +:+ kChannelLogDocType +:+ ":".

Definition channelLogDocID (channelName : string) : string :=
  kChannelLogKeyPrefix +:+ channelName.

(** The contents of a slice: a nil slice has none. *)
Definition sliceContents (s : option bytes) : bytes := default [] s.

Section subroutines.
Context {codec : Codec} {error : Type}.

Definition decodeChannelLog (raw : option bytes) : option ChangeLog * option error :=
  match raw with
  | None => (None, None)
  | Some raw => (Some (DecodeChangeLog raw), None)
  end.

Definition encodeChannelLog (log : option ChangeLog) : option bytes :=
  match log with
  | None => None
  | Some log => Some (ChangeLog_Encode log)
  end.
End subroutines.

(** ** The channel-log writer: committing a batch *)

(** The variables of [addToChangeLog_] that the update callback captures and
    assigns: [fullUpdate], [removedCount], [fullUpdateAttempts], and the
    parameter [entries] itself. *)
Record captured := mkCaptured {
  fullUpdate : bool;
  removedCount : Z;
  fullUpdateAttempts : Z;
  entries : list changeEntry
}.

Definition set_fullUpdate (b : bool) (st : captured) : captured :=
  mkCaptured b (removedCount st) (fullUpdateAttempts st) (entries st).
Definition set_removedCount (n : Z) (st : captured) : captured :=
  mkCaptured (fullUpdate st) n (fullUpdateAttempts st) (entries st).
Definition set_fullUpdateAttempts (n : Z) (st : captured) : captured :=
  mkCaptured (fullUpdate st) (removedCount st) n (entries st).
Definition set_entries (es : list changeEntry) (st : captured) : captured :=
  mkCaptured (fullUpdate st) (removedCount st) (fullUpdateAttempts st) es.

Section addToChangeLog.
Context {codec : Codec} {error : Type}.
Variable cfg : Config.

(** [AlwaysCompactChangeLog || (len(currentValue) > 20000 &&
    (rand.Intn(100) < len(currentValue)/5000))], where [draw] is the value
    [rand.Intn(100)] returns when the call is reached. *)
Definition fullUpdateDecision (currentValue : bytes) (draw : Z) : bool :=
  AlwaysCompactChangeLog cfg ||
  ((GoInt.len currentValue >? 20000) &&
   (draw <? GoInt.quot (GoInt.len currentValue) 5000)).

(** [for _, entry := range entries { channelLog.Add( *entry.logEntry) }] *)
Fixpoint addAll (log : ChangeLog) (es : list changeEntry) : option ChangeLog :=
  match es with
  | [] => Some log
  | entry :: es => e ← logEntry entry; addAll (Add log e) es
  end.

(** [for _, entry := range entries { entry.logEntry.Encode(w, entry.parentRevID) }]:
    the bytes written to [w]. *)
Fixpoint encodeAll (es : list changeEntry) : option bytes :=
  match es with
  | [] => Some []
  | entry :: es =>
      e ← logEntry entry;
      rest ← encodeAll es;
      Some (LogEntry_Encode e (parentRevID entry) ++ rest)
  end.

(** The last four lines of the callback: append the encoded form of the new
    entries to the raw log bytes. *)
Definition appendEncoded (st : captured) (currentValue : bytes)
  : option (captured * (bytes * WriteOptions * option error)) :=
  w ← encodeAll (entries st);
  Some (st, (currentValue ++ w, Raw, None)).

(** The function literal passed to [c.bucket.WriteUpdate]. *)
Definition callback (st : captured) (currentValue : bytes) (draw : Z)
  : option (captured * (bytes * WriteOptions * option error)) :=
  let st := set_fullUpdate (fullUpdateDecision currentValue draw) st in
  let st := set_removedCount 0 st in
  let numToKeep := GoInt.sub (MaxChangeLogLength cfg) (GoInt.len (entries st)) in
  if (GoInt.len currentValue =? 0) || (numToKeep <=? 0) then
    es ← (if numToKeep <? 0
          then GoInt.sliceFrom (GoInt.neg numToKeep) (entries st)
          else Some (entries st));
    let st := set_entries es st in
    channelLog ← addAll emptyLog (entries st);
    Some (st, (sliceContents (encodeChannelLog (Some channelLog)), Raw, None))
  else if fullUpdate st then
    let st := set_fullUpdateAttempts (GoInt.add (fullUpdateAttempts st) 1) st in
    let '(removed, newValue) :=
      TruncateEncodedChangeLog currentValue numToKeep (GoInt.quot numToKeep 2) in
    let st := set_removedCount removed st in
    if removedCount st >? 0 then
      w ← encodeAll (entries st);
      Some (st, (newValue ++ w, Raw, None))
    else appendEncoded st currentValue
  else appendEncoded st currentValue.

(** [addToChangeLog_]: the document, the captured variables as the call
    leaves them, and the error [WriteUpdate] returns. *)
Definition addToChangeLog_ (channelName : string) (s : gmap string bytes)
    (entries : list changeEntry)
    (conflicts : list (Z * bytes)) (final : Z * option error)
  : option (gmap string bytes * captured * option error) :=
  WriteUpdate callback (channelLogDocID channelName) s
    (mkCaptured false 0 0 entries) conflicts final.
End addToChangeLog.

(** ** The channel-log writer: draining the mailbox *)

(** What the writer's goroutine observes on its channel [io], in order:
    an item a producer sent ([Send]), an instant at which nothing is buffered
    ([Idle]: a blocking receive waits through it, the [select] takes its
    [default] case), and the channel being closed ([Close]).  A script that
    ends without [Close] is a channel on which nothing more ever happens. *)
Inductive ioEvent :=
  | Send (e : changeEntry)
  | Idle
  | Close.

(** The items [addChange] and [addChannelLog] send. *)
Definition addChange (entry : LogEntry) (parentRevID : string) : changeEntry :=
  mkChangeEntry (Some entry) parentRevID None.

Definition addChannelLog (log : option ChangeLog) : changeEntry :=
  mkChangeEntry None "" log.

(** The sequence of a queued change; 0 if it has no [logEntry]. *)
Definition sequenceOf (e : changeEntry) : Z :=
  default 0 (Sequence <$> logEntry e).


Section channelLogWriter.
Context {codec : Codec} {error : Type}.
Variable cfg : Config.
Variable channelName : string.

(** Saves a channel log, _if_ there isn't already one in the database.  The
    log line evaluates [log.Len()], a dereference of [log]. *)
Definition addChangeLog_ (s : gmap string bytes) (log : option ChangeLog)
  : option ((bool * option error) * gmap string bytes) :=
  let r := AddRaw s (channelLogDocID channelName) 0 (sliceContents (encodeChannelLog log)) in
  _ ← log;
  Some r.

Fixpoint readChange_ (s : gmap string bytes) (io : list ioEvent)
  : option (option changeEntry * gmap string bytes * list ioEvent) :=
  match io with
  | [] => None
  | Idle :: io' => readChange_ s io'
  | Close :: _ => Some (None, s, io)
  | Send entry :: io' =>
      match replacementLog entry with
      | Some _ =>
          (* Request to create the channel log if it doesn't exist: *)
          r ← addChangeLog_ s (replacementLog entry);
          readChange_ r.2 io'
      | None => Some (Some entry, s, io')
      end
  end.

(** The loop labelled [loop] of [readChanges_]. *)
Fixpoint readMore (entries : list changeEntry) (s : gmap string bytes) (io : list ioEvent)
  : option (list changeEntry * gmap string bytes * list ioEvent) :=
  if GoInt.len entries <? kChannelLogWriterQueueLength then
    match io with
    | [] => Some (entries, s, io)
    | Idle :: io' => Some (entries, s, io')
    | Close :: _ => Some (entries, s, io)
    | Send entry :: io' =>
        match replacementLog entry with
        | Some _ =>
            r ← addChangeLog_ s (replacementLog entry);
            readMore entries r.2 io'
        | None => readMore (entries ++ [entry]) s io'
        end
    end
  else Some (entries, s, io).

(** Reads all available changes from io and returns them as an array, or nil
    if io is closed. *)
Definition readChanges_ (s : gmap string bytes) (io : list ioEvent)
  : option (option (list changeEntry) * gmap string bytes * list ioEvent) :=
  '(entry, s, io) ← readChange_ s io;
  match entry with
  | None => Some (None, s, io)
  | Some entry =>
      '(entries, s, io) ← readMore [entry] s io;
      Some (Some entries, s, io)
  end.

(** [changeEntryList.Less], on the two elements it indexes. *)
Definition Less (a b : changeEntry) : option bool :=
  x ← logEntry a; y ← logEntry b; Some (Sequence x <? Sequence y).

(** [Less] where it does not panic. *)
Definition lessBySequence (a b : changeEntry) : bool :=
  sequenceOf a <? sequenceOf b.

(** [sort.Sort] of the Go library: [sortSort less l] is the slice after the
    call, [less] being the [Less] of the [sort.Interface] passed. *)
Variable sortSort : (changeEntry → changeEntry → bool) → list changeEntry → list changeEntry.

(** Simplifies an array of changes before they're appended to the channel
    log.  [sort.Sort] calls [Less] on every element of a slice of two or more,
    so a nil [logEntry] there is dereferenced; it compares nothing in a
    shorter slice.  Where every entry has a [logEntry], [Less] is
    [lessBySequence]. *)
Definition massageChanges (changes : list changeEntry) : option (list changeEntry) :=
  if forallb (λ e, bool_decide (is_Some (logEntry e))) changes then
    Some (sortSort lessBySequence changes)
  else if bool_decide (length changes < 2)%nat then Some changes
  else None.

(** One iteration of the goroutine's loop: the store, what is left of [io],
    and whether the loop goes on ([false]: client called close). *)
Definition writerIteration (s : gmap string bytes) (io : list ioEvent)
    (conflicts : list (Z * bytes)) (final : Z * option error)
  : option (gmap string bytes * list ioEvent * bool) :=
  '(changes, s, io) ← readChanges_ s io;
  match changes with
  | Some changes =>
      sorted ← massageChanges changes;
      '(s, _, _) ← addToChangeLog_ cfg channelName s sorted conflicts final;
      Some (s, io, true)
  | None => Some (s, io, false)
  end.
End channelLogWriter.

(** What [sort.Sort] promises for a [Less] that is a strict weak order: the
    slice is rearranged ([Swap] only) and ends up in ascending order.  The
    sort is not guaranteed to be stable. *)
Definition StrictWeakOrder {A} (less : A → A → bool) : Prop :=
  (∀ a, less a a = false) ∧
  (∀ a b c, less a b = true → less b c = true → less a c = true) ∧
  (∀ a b c, less a b = false → less b c = false → less a c = false).

Definition SortContract {A} (sort : (A → A → bool) → list A → list A) : Prop :=
  (∀ less l, sort less l ≡ₚ l) ∧
  (∀ less l, StrictWeakOrder less →
     StronglySorted (λ a b, less b a = false) (sort less l)).

(** ** The changes writer: fan-out and read *)

(** Modelled from the spec: the declarations of [ChannelMap] and
    [ChannelRemoval] are not part of changes_writer.go.  A membership maps a
    channel name to an optional removal, which carries the sequence [Seq] at
    which the document left the channel. *)
Record ChannelRemoval := mkChannelRemoval { Seq : Z }.

Abbreviation ChannelMap := (gmap string (option ChannelRemoval)).

(** The changes writer's [logWriters]: for each channel that has a writer, the
    items sent to its mailbox so far, oldest first.  (The writer's goroutine
    takes them from the front; that is not part of this state.) *)
Abbreviation logWriters := (gmap string (list changeEntry)).

Definition mailbox (c : gmap string (list changeEntry)) (channelName : string)
  : list changeEntry := default [] (c !! channelName).

(** Adds a change to a single channel-log (asynchronously):
    [c.logWriterForChannel(channelName).addChange(entry, parentRevID)]; the
    writer is created if the channel has none. *)
Definition addToChangeLog (c : gmap string (list changeEntry))
    (channelName : string) (entry : LogEntry) (parentRevID : string)
  : gmap string (list changeEntry) :=
  <[channelName := mailbox c channelName ++ [addChange entry parentRevID]]> c.

Section changesWriter.
Context {codec : Codec} {error : Type}.
Variable cfg : Config.

(** [channels.Removed], a bit of [LogEntry.Flags]. *)
Variable Removed : Z.

(** The body of [for channel, removal := range channelMap], threading the
    writers and the variable [entry], whose [Flags] the body assigns.  [order]
    is the order in which [range] happens to visit the map. *)
Fixpoint addToChangeLogs_range (order : list (string * option ChannelRemoval))
    (c : gmap string (list changeEntry)) (entry : LogEntry) (parentRevID : string)
  : gmap string (list changeEntry) * LogEntry :=
  match order with
  | [] => (c, entry)
  | (channel, removal) :: order =>
      match removal with
      | Some r =>
          if bool_decide (Seq r ≠ Sequence entry) then
            addToChangeLogs_range order c entry parentRevID
          else
            let entry := setFlags entry (Z.lor (Flags entry) Removed) in
            addToChangeLogs_range order
              (addToChangeLog c channel entry parentRevID) entry parentRevID
      | None =>
          let entry := setFlags entry (Z.ldiff (Flags entry) Removed) in
          addToChangeLogs_range order
            (addToChangeLog c channel entry parentRevID) entry parentRevID
      end
  end.

(** Adds a change to all relevant logs, asynchronously. *)
Definition addToChangeLogs (order : list (string * option ChannelRemoval))
    (c : gmap string (list changeEntry)) (entry : LogEntry) (parentRevID : string)
  : gmap string (list changeEntry) * option error :=
  let '(c, entry) := addToChangeLogs_range order c entry parentRevID in
  (* Finally, add to the universal "*" channel. *)
  let c :=
    if EnableStarChannelLog cfg then
      let entry := setFlags entry (Z.ldiff (Flags entry) Removed) in
      addToChangeLog c "*" entry parentRevID
    else c in
  (c, None).

(** [base.IsDocNotFoundError] and the bucket's [GetRaw]. *)
Variable IsDocNotFoundError : error → bool.
Variable GetRaw : string → option bytes * option error.

(** Loads a channel's log from the database and returns it.
    [log.FilterAfter] assigns through its receiver: on a nil [log] (a nil
    [raw] read without error) that is a nil dereference. *)
Definition getChangeLog (channelName : string) (afterSeq : Z)
  : option (option ChangeLog * option error) :=
  match GetRaw (channelLogDocID channelName) with
  | (raw, None) =>
      let '(log, err) := decodeChannelLog raw in
      match err with
      | None => l ← log; Some (Some (FilterAfter afterSeq l), err)
      | Some _ => Some (log, err)
      end
  | (_, Some err) =>
      Some (None, if IsDocNotFoundError err then None else Some err)
  end.
End changesWriter.

(** Modelled from the spec: [GetRaw] of the in-memory store.  A key that was
    never written is reported by the store's not-found error. *)
Definition store_GetRaw {error : Type} (notFound : error) (s : gmap string bytes)
    (k : string) : option bytes * option error :=
  match s !! k with
  | Some v => (Some v, None)
  | None => (None, Some notFound)
  end.

(** ** What the fan-out sends, in the words of the spec *)

Definition withRemoved (Removed : Z) (entry : LogEntry) : LogEntry :=
  setFlags entry (Z.lor (Flags entry) Removed).

Definition withoutRemoved (Removed : Z) (entry : LogEntry) : LogEntry :=
  setFlags entry (Z.ldiff (Flags entry) Removed).

(** The copy of [entry] that a channel of the membership is handed: none if
    the channel carries a removal at another sequence, the entry flagged
    Removed if it carries a removal at the entry's sequence, the entry with
    the flag cleared if it carries no removal. *)
Definition copyFor (Removed : Z) (entry : LogEntry) (removal : option ChannelRemoval)
  : option LogEntry :=
  match removal with
  | Some r =>
      if bool_decide (Seq r = Sequence entry)
      then Some (withRemoved Removed entry) else None
  | None => Some (withoutRemoved Removed entry)
  end.

(** The items one call adds to the mailbox of [channel]: the channel's copy,
    if the membership gives it one, and then the universal copy if [channel]
    is the universal channel and that is enabled. *)
Definition itemsFor (cfg : Config) (Removed : Z) (m : gmap string (option ChannelRemoval))
    (entry : LogEntry) (parentRevID : string) (channel : string) : list changeEntry :=
  match m !! channel ≫= copyFor Removed entry with
  | Some e => [addChange e parentRevID]
  | None => []
  end ++
  (if EnableStarChannelLog cfg && bool_decide (channel = "*")
   then [addChange (withoutRemoved Removed entry) parentRevID] else []).

(** Two entries that differ at most in the Removed bits of their flags. *)
Definition agree (Removed : Z) (a b : LogEntry) : Prop :=
  Sequence a = Sequence b ∧ DocID a = DocID b ∧ RevID a = RevID b ∧
  Z.ldiff (Flags a) Removed = Z.ldiff (Flags b) Removed.

(** The sends of the loop over the membership, for the entry the caller
    passed, in the order of the loop. *)
Definition sends (Removed : Z) (entry : LogEntry)
    (order : list (string * option ChannelRemoval)) : list (string * LogEntry) :=
  omap (λ p, (p.1,.) <$> copyFor Removed entry p.2) order.

Definition deliver (parentRevID : string) (c : gmap string (list changeEntry))
    (p : string * LogEntry) : gmap string (list changeEntry) :=
  addToChangeLog c p.1 p.2 parentRevID.

(** ** What a drain takes from the mailbox *)

(** The spec's PendingWrite: exactly one of [logEntry] and [replacementLog]
    is populated. *)
Definition pendingWrite (e : changeEntry) : Prop :=
  (is_Some (logEntry e) ∧ replacementLog e = None) ∨
  (logEntry e = None ∧ is_Some (replacementLog e)).

Definition sent (ev : ioEvent) : option changeEntry :=
  match ev with Send e => Some e | _ => None end.

(** The append-type items among the events, in order. *)
Definition appendsOf (evs : list ioEvent) : list changeEntry :=
  filter (λ e, replacementLog e = None) (omap sent evs).

(** The logs of the seed-type items among the events, in order. *)
Definition seedsOf (evs : list ioEvent) : list ChangeLog :=
  omap replacementLog (omap sent evs).

(** The add-if-absent writes of the given logs to a channel's document. *)
Definition seedAll {codec : Codec} {error : Type} (channelName : string)
    (s : gmap string bytes) (logs : list ChangeLog) : gmap string bytes :=
  foldl (λ s log,
           (AddRaw (error:=error) s (channelLogDocID channelName) 0
                   (ChangeLog_Encode log)).2) s logs.

(** ** Conditions under which the theorems are stated *)

(** [MaxChangeLogLength] is a non-negative [int]. *)
Definition goodConfig (cfg : Config) : Prop :=
  0 ≤ MaxChangeLogLength cfg ≤ GoInt.max_int.

(** A batch as [readChanges_] assembles it from append-type items: no more
    entries than the mailbox holds, each with a [logEntry]. *)
Definition goodBatch (es : list changeEntry) : Prop :=
  GoInt.len es ≤ kChannelLogWriterQueueLength ∧
  Forall (λ e, is_Some (logEntry e)) es.

(** The bytes the loop [entry.logEntry.Encode(w, entry.parentRevID)] writes
    for a batch whose entries all have a [logEntry]. *)
Definition batchBytes {codec : Codec} (es : list changeEntry) : bytes :=
  concat (map (λ e, match logEntry e with
                    | Some le => LogEntry_Encode le (parentRevID e)
                    | None => []
                    end) es).

(** The result of an invocation, without the captured variables. *)
Definition returned {St A : Type} (r : option (St * A)) : option A := snd <$> r.

(** ** The writer's goroutine *)

Section goroutine.
Context {codec : Codec} {error : Type}.
Variable cfg : Config.
Variable channelName : string.
Variable sortSort : (changeEntry → changeEntry → bool) → list changeEntry → list changeEntry.

(** The goroutine the channelLogWriter runs, in [newChannelLogWriter]: it
    iterates until [readChanges_] returns nil (client called close) and then
    closes [awake].  [sched i] is what the store's retry loop meets in the
    [i]th commit.  The result is the store and what is left of [io] when the
    goroutine finishes; [fuel] bounds the number of iterations (an iteration
    that goes on has taken at least one item from [io]). *)
Fixpoint writerLoop (fuel : nat) (sched : nat → list (Z * bytes) * (Z * option error))
    (i : nat) (s : gmap string bytes) (io : list ioEvent)
  : option (gmap string bytes * list ioEvent) :=
  match fuel with
  | O => None
  | S fuel =>
      match writerIteration (error:=error) cfg channelName sortSort s io
              (sched i).1 (sched i).2 with
      | Some (s, io, true) => writerLoop fuel sched (S i) s io
      | Some (s, io, false) => Some (s, io)
      | None => None
      end
  end.
End goroutine.

(** The document as the last of the writers that won a race left it. *)
Definition lastValue {O : Type} (k : string) (s : gmap string bytes)
    (conflicts : list (O * bytes)) : gmap string bytes :=
  foldl (λ s c, <[k := c.2]> s) s conflicts.

(** What a commit leaves behind and returns: the store and the error. *)
Definition outcome {St error : Type} (r : option (gmap string bytes * St * option error))
  : option (gmap string bytes * option error) :=
  (λ r, (r.1.1, r.2)) <$> r.

(** The sends of one call in order: those of the loop, then the universal
    one. *)
Definition allSends (cfg : Config) (Removed : Z) (entry : LogEntry)
    (order : list (string * option ChannelRemoval)) : list (string * LogEntry) :=
  sends Removed entry order
  ++ (if EnableStarChannelLog cfg then [("*", withoutRemoved Removed entry)] else []).

(** ** Sample collaborators

    Concrete collaborators on which the model runs: a store error type, a
    byte encoding and two sorting procedures.  The theorems below hold for
    every codec and every sort that keeps [SortContract]; these instances
    serve the worked examples. *)

Variant storeError := KeyNotFound | Unavailable.

Definition isKeyNotFound (e : storeError) : bool :=
  match e with KeyNotFound => true | Unavailable => false end.

Module sample.

Definition byteOfZ (z : Z) : Byte.byte :=
  default Byte.x00 (Byte.of_N (Z.to_N (z `mod` 256))).

Definition zOfByte (b : Byte.byte) : Z := Z.of_N (Byte.to_N b).

(** A string is written as its length (one byte) followed by its bytes. *)
Definition writeString (s : string) : bytes :=
  byteOfZ (Z.of_nat (String.length s)) :: String.list_byte_of_string s.

Definition readString (r : bytes) : string * bytes :=
  match r with
  | [] => (EmptyString, [])
  | n :: r =>
      let k := Z.to_nat (zOfByte n) in
      (String.string_of_list_byte (take k r), drop k r)
  end.

(** An entry is written as its flags, its sequence (one byte each), its
    document ID, its revision ID and the parent revision ID. *)
Definition encodeEntry (e : LogEntry) (parent : string) : bytes :=
  byteOfZ (Flags e) :: byteOfZ (Sequence e) ::
  writeString (DocID e) ++ writeString (RevID e) ++ writeString parent.

Definition encodeLog (log : ChangeLog) : bytes :=
  concat (map (λ e, encodeEntry e EmptyString) (Entries log)).

(** The entries of an encoded log, each with the bytes that encode it. *)
Fixpoint readEntries (fuel : nat) (r : bytes) : list (LogEntry * bytes) :=
  match fuel with
  | O => []
  | S fuel =>
      match r with
      | f :: q :: r1 =>
          let '(doc, r2) := readString r1 in
          let '(rev, r3) := readString r2 in
          let '(_, r4) := readString r3 in
          (mkLogEntry (zOfByte q) doc rev (zOfByte f),
           take (length r - length r4)%nat r) :: readEntries fuel r4
      | _ => []
      end
  end.

Definition decodeLog (raw : bytes) : ChangeLog :=
  mkChangeLog (map fst (readEntries (length raw) raw)).

(** Drops the oldest entries so that at most [maxLength] remain. *)
Definition truncateLog (raw : bytes) (maxLength minLength : Z) : Z * bytes :=
  let es := readEntries (length raw) raw in
  let remove := GoInt.len es - maxLength in
  if remove <=? 0 then (0, [])
  else (remove, concat (map snd (drop (Z.to_nat remove) es))).

Definition codec : Codec :=
  Build_Codec encodeEntry encodeLog decodeLog truncateLog.

(** Insertion sort, each element placed before the first one that is not
    less than it. *)
Fixpoint insertBefore {A} (less : A → A → bool) (x : A) (l : list A) : list A :=
  match l with
  | [] => [x]
  | y :: l' => if less y x then y :: insertBefore less x l' else x :: l
  end.

Definition insertionSort {A} (less : A → A → bool) (l : list A) : list A :=
  foldr (insertBefore less) [] l.



(** Sample data: the change with sequence [q], and batches of such changes. *)
Definition change (q : Z) : changeEntry :=
  addChange (mkLogEntry q "doc" "1-a" 0) "".

Definition batch7 : list changeEntry := map change [1; 2; 3; 4; 5; 6; 7].

(** The entry with sequence [q], and a log of four entries. *)
Definition entry (q : Z) : LogEntry := mkLogEntry q "doc" "1-a" 0.

Definition log4 : ChangeLog := mkChangeLog [entry 1; entry 2; entry 3; entry 4].

(** A document of 2100 entries: 23100 bytes. *)
Definition longDocument : bytes :=
  encodeLog (mkChangeLog (replicate 2100 (entry 1))).

(** A membership: channel "a" without removal, channel "b" removed at 7. *)
Definition membership : gmap string (option ChannelRemoval) :=
  <["a" := None]> (<["b" := Some (mkChannelRemoval 7)]> ∅).


End sample.

(** * Properties *)

(** ** Go's [int] *)

Lemma wrap_small (z : Z) :
  GoInt.min_int ≤ z ≤ GoInt.max_int → GoInt.wrap z = z.
Proof.
  unfold GoInt.min_int, GoInt.max_int, GoInt.wrap. intros Hz.
  rewrite Z.mod_small; lia.
Qed.

Lemma len_nonneg {A} (l : list A) : 0 ≤ GoInt.len l.
Proof. unfold GoInt.len. lia. Qed.

Lemma sub_len_small {A} (m : Z) (l : list A) :
  0 ≤ m ≤ GoInt.max_int → GoInt.len l ≤ kChannelLogWriterQueueLength →
  GoInt.sub m (GoInt.len l) = m - GoInt.len l.
Proof.
  intros Hm Hl. unfold GoInt.sub. apply wrap_small.
  pose proof (len_nonneg l).
  unfold GoInt.min_int, GoInt.max_int, kChannelLogWriterQueueLength in *. lia.
Qed.

Lemma neg_small (z : Z) :
  - GoInt.max_int ≤ z ≤ GoInt.max_int → GoInt.neg z = - z.
Proof.
  intros Hz. unfold GoInt.neg. apply wrap_small.
  unfold GoInt.min_int, GoInt.max_int in *. lia.
Qed.

Lemma quot_nonneg (a b : Z) : 0 ≤ a → 0 < b → GoInt.quot a b = a `div` b.
Proof. intros. unfold GoInt.quot. apply Z.quot_div_nonneg; lia. Qed.

(** ** The update callback *)

Section callback_facts.
Context {codec : Codec} {error : Type}.
Variable cfg : Config.

Lemma addAll_Some (es : list changeEntry) (log : ChangeLog) :
  Forall (λ e, is_Some (logEntry e)) es →
  addAll log es = Some (mkChangeLog (Entries log ++ omap logEntry es)).
Proof.
  intros Hes. revert log. induction Hes as [|e es [le Hle] _ IH]; intros log; simpl.
  - rewrite app_nil_r. by destruct log.
  - rewrite Hle. simpl. rewrite IH. simpl. by rewrite <-app_assoc.
Qed.

Lemma encodeAll_Some (es : list changeEntry) :
  Forall (λ e, is_Some (logEntry e)) es →
  encodeAll es = Some (batchBytes es).
Proof.
  unfold batchBytes.
  induction 1 as [|e es [le Hle] _ IH]; simpl; [done|].
  by rewrite Hle, IH.
Qed.

Lemma callback_fullUpdate (st st' : captured) (cv : bytes) (draw : Z)
    (res : bytes * WriteOptions * option error) :
  callback cfg st cv draw = Some (st', res) →
  fullUpdate st' = fullUpdateDecision cfg cv draw.
Proof.
  unfold callback, appendEncoded. intros Hcb.
  repeat (case_match || simplify_option_eq); done.
Qed.

End callback_facts.

(** C3.  For every invocation of the update callback on current bytes of
    length [L] with draw [r] from [rand.Intn(100)]: the full-compaction
    decision is [AlwaysCompactChangeLog || (L > 20000 && r < L / 5000)], the
    division being exact integer division; it is false for every draw when
    [L <= 20000] and [AlwaysCompactChangeLog] is off; and it is the value the
    invocation leaves in the captured [fullUpdate]. *)
Theorem fullUpdate_decision {codec : Codec} {error : Type} (cfg : Config) (cv : bytes) (r : Z) :
  let L := GoInt.len cv in
  fullUpdateDecision cfg cv r
    = AlwaysCompactChangeLog cfg || ((L >? 20000) && (r <? L `div` 5000))
  ∧ (L ≤ 20000 → AlwaysCompactChangeLog cfg = false →
     fullUpdateDecision cfg cv r = false)
  ∧ (∀ (st st' : captured) (res : bytes * WriteOptions * option error),
       callback cfg st cv r = Some (st', res) →
       fullUpdate st'
         = AlwaysCompactChangeLog cfg || ((L >? 20000) && (r <? L `div` 5000))).
Proof.
  intros L.
  assert (Hd : fullUpdateDecision cfg cv r
    = AlwaysCompactChangeLog cfg || ((L >? 20000) && (r <? L `div` 5000))).
  { unfold fullUpdateDecision. fold L.
    rewrite quot_nonneg; [done | apply len_nonneg | lia]. }
  split; [done|]. split.
  - intros HL Hoff. rewrite Hd, Hoff. simpl.
    rewrite Z.gtb_ltb.
    by replace (20000 <? L) with false by (symmetry; apply Z.ltb_ge; lia).
  - intros st st' res Hcb. rewrite <-Hd. by eapply callback_fullUpdate.
Qed.

Section callback_cases.
Context {codec : Codec} {error : Type}.
Variable cfg : Config.

(** What the callback returns when Case A does not apply. *)
Lemma callback_case_BC (st : captured) (cv : bytes) (r : Z) :
  goodConfig cfg → goodBatch (entries st) →
  let numToKeep := MaxChangeLogLength cfg - GoInt.len (entries st) in
  GoInt.len cv ≠ 0 → 0 < numToKeep →
  let removedCount := (TruncateEncodedChangeLog cv numToKeep (numToKeep `div` 2)).1 in
  let truncated := (TruncateEncodedChangeLog cv numToKeep (numToKeep `div` 2)).2 in
  returned (callback (error:=error) cfg st cv r)
    = Some (if fullUpdateDecision cfg cv r && (0 <? removedCount)
            then truncated ++ batchBytes (entries st)
            else cv ++ batchBytes (entries st), Raw, None).
Proof.
  intros Hcfg [Hlen Hsome] numToKeep Hcv Hkeep removedCount truncated.
  unfold returned, callback, appendEncoded. simpl.
  rewrite sub_len_small by done. fold numToKeep.
  rewrite quot_nonneg by lia.
  replace (GoInt.len cv =? 0) with false by (symmetry; by apply Z.eqb_neq).
  replace (numToKeep <=? 0) with false by (symmetry; apply Z.leb_gt; lia).
  simpl. subst removedCount truncated.
  destruct (fullUpdateDecision cfg cv r); simpl.
  - destruct (TruncateEncodedChangeLog cv numToKeep (numToKeep `div` 2))
      as [removed newValue]; simpl.
    rewrite Z.gtb_ltb. destruct (0 <? removed); simpl;
      by rewrite encodeAll_Some.
  - by rewrite encodeAll_Some.
Qed.

(** C4.  When Case A does not apply (the current bytes are not empty and
    [numToKeep > 0]): the callback returns, with a nil error; if the
    full-compaction decision is true and truncating the current bytes to
    [numToKeep] entries (floor [numToKeep / 2]) removed [removedCount > 0]
    entries, the result is the truncated bytes followed by the encoded batch;
    in every other case it is the current bytes, unchanged, followed by the
    encoded batch.  Only the first path can return fewer bytes than it was
    given. *)
Theorem callback_truncate_or_append (st : captured) (cv : bytes) (r : Z) :
  goodConfig cfg → goodBatch (entries st) →
  let numToKeep := MaxChangeLogLength cfg - GoInt.len (entries st) in
  GoInt.len cv ≠ 0 → 0 < numToKeep →
  let removedCount := (TruncateEncodedChangeLog cv numToKeep (numToKeep `div` 2)).1 in
  let truncated := (TruncateEncodedChangeLog cv numToKeep (numToKeep `div` 2)).2 in
  returned (callback (error:=error) cfg st cv r)
    = Some (if fullUpdateDecision cfg cv r && (0 <? removedCount)
            then truncated ++ batchBytes (entries st)
            else cv ++ batchBytes (entries st), Raw, None)
  ∧ (∀ out opts err,
       returned (callback (error:=error) cfg st cv r) = Some (out, opts, err) →
       (length out < length cv)%nat →
       fullUpdateDecision cfg cv r = true ∧ 0 < removedCount).
Proof.
  intros Hcfg Hbatch numToKeep Hcv Hkeep removedCount truncated.
  pose proof (callback_case_BC st cv r Hcfg Hbatch Hcv Hkeep) as Hret.
  cbv zeta in Hret. fold numToKeep in Hret. fold removedCount truncated in Hret.
  split; [done|].
  intros out opts err Hout Hshort. rewrite Hret in Hout.
  destruct (fullUpdateDecision cfg cv r); simpl in Hout.
  - destruct (0 <? removedCount) eqn:Hrem.
    + split; [done|]. by apply Z.ltb_lt.
    + simplify_eq. rewrite length_app in Hshort. lia.
  - simplify_eq. rewrite length_app in Hshort. lia.
Qed.

End callback_cases.

Section callback_replace.
Context {codec : Codec} {error : Type}.
Variable cfg : Config.

Lemma omap_logEntry_length (es : list changeEntry) :
  Forall (λ e, is_Some (logEntry e)) es →
  length (omap logEntry es) = length es.
Proof.
  induction 1 as [|e es [le Hle] _ IH]; simpl; [done|].
  rewrite Hle. simpl. f_equal. exact IH.
Qed.

(** What Case A leaves in the captured variables and returns. *)
Lemma callback_case_A (st : captured) (cv : bytes) (r : Z) :
  goodConfig cfg → goodBatch (entries st) →
  let numToKeep := MaxChangeLogLength cfg - GoInt.len (entries st) in
  GoInt.len cv = 0 ∨ numToKeep ≤ 0 →
  let kept := drop (Z.to_nat (- numToKeep)) (entries st) in
  callback (error:=error) cfg st cv r
    = Some (mkCaptured (fullUpdateDecision cfg cv r) 0 (fullUpdateAttempts st) kept,
            (ChangeLog_Encode (mkChangeLog (omap logEntry kept)), Raw, None)).
Proof.
  intros Hcfg [Hlen Hsome] numToKeep HA kept.
  pose proof (len_nonneg (entries st)) as Hpos.
  unfold callback. simpl. rewrite sub_len_small by done. fold numToKeep.
  replace ((GoInt.len cv =? 0) || (numToKeep <=? 0)) with true; last first.
  { symmetry. apply orb_true_iff. destruct HA; [left; by apply Z.eqb_eq | right; by apply Z.leb_le]. }
  assert (Hkept : (if numToKeep <? 0
                   then GoInt.sliceFrom (GoInt.neg numToKeep) (entries st)
                   else Some (entries st)) = Some kept).
  { destruct (numToKeep <? 0) eqn:Hneg.
    - apply Z.ltb_lt in Hneg. unfold GoInt.sliceFrom.
      rewrite neg_small; last first.
      { unfold goodConfig, GoInt.max_int, kChannelLogWriterQueueLength in *.
        subst numToKeep. lia. }
      rewrite bool_decide_eq_true_2; [done|].
      unfold goodConfig in Hcfg. subst numToKeep. lia.
    - apply Z.ltb_ge in Hneg. subst kept.
      replace (Z.to_nat (- numToKeep)) with 0%nat by lia. done. }
  rewrite Hkept. simpl.
  rewrite addAll_Some by (subst kept; by apply Forall_drop). done.
Qed.

(** C1.  For a commit of a batch: if the current bytes are empty or
    [numToKeep = MaxChangeLogLength - len(batch) <= 0], the callback returns
    the encoding of a new log made of the batch alone, whatever the current
    bytes are; if [numToKeep < 0] the oldest [-numToKeep] entries of the
    batch are dropped first, leaving [MaxChangeLogLength] entries.  With
    [MaxChangeLogLength = 5] and a batch of 7 the new log holds exactly the
    last 5 entries of the batch. *)
Theorem callback_replaces_log (st : captured) (cv : bytes) (r : Z) :
  goodConfig cfg → goodBatch (entries st) →
  let numToKeep := MaxChangeLogLength cfg - GoInt.len (entries st) in
  GoInt.len cv = 0 ∨ numToKeep ≤ 0 →
  let kept := drop (Z.to_nat (- numToKeep)) (entries st) in
  returned (callback (error:=error) cfg st cv r)
    = Some (ChangeLog_Encode (mkChangeLog (omap logEntry kept)), Raw, None)
  ∧ (0 ≤ numToKeep → kept = entries st)
  ∧ (numToKeep < 0 → GoInt.len kept = MaxChangeLogLength cfg)
  ∧ (MaxChangeLogLength cfg = 5 → length (entries st) = 7%nat →
     kept = drop 2 (entries st) ∧ length (omap logEntry kept) = 5%nat).
Proof.
  intros Hcfg Hbatch numToKeep HA kept.
  split; [|split; [|split]].
  - unfold returned. by rewrite callback_case_A.
  - intros Hpos. subst kept. by replace (Z.to_nat (- numToKeep)) with 0%nat by lia.
  - intros Hneg. subst kept numToKeep. unfold GoInt.len in *.
    rewrite length_drop. unfold goodConfig in Hcfg. lia.
  - intros Hmax H7. subst kept numToKeep. unfold GoInt.len. rewrite Hmax, H7.
    split; [done|].
    rewrite omap_logEntry_length by (apply Forall_drop, Hbatch).
    rewrite length_drop, H7. done.
Qed.

End callback_replace.

(** ** The callback under the store's retry loop *)

Section callback_retry.
Context {codec : Codec} {error : Type}.
Variable cfg : Config.

(** The batch an invocation leaves in the captured [entries]. *)
Lemma callback_entries (st st' : captured) (cv : bytes) (r : Z)
    (res : bytes * WriteOptions * option error) :
  goodConfig cfg → goodBatch (entries st) →
  callback cfg st cv r = Some (st', res) →
  entries st'
    = drop (Z.to_nat (GoInt.len (entries st) - MaxChangeLogLength cfg)) (entries st).
Proof.
  intros Hcfg Hbatch Hcb.
  set (numToKeep := MaxChangeLogLength cfg - GoInt.len (entries st)).
  destruct (decide (GoInt.len cv = 0 ∨ numToKeep ≤ 0)) as [HA|HA].
  - rewrite callback_case_A in Hcb by done. simplify_eq. simpl.
    f_equal. subst numToKeep. lia.
  - replace (Z.to_nat _) with 0%nat by (subst numToKeep; lia). simpl.
    revert Hcb. unfold callback, appendEncoded. simpl.
    destruct Hbatch as [Hlen Hsome].
    rewrite sub_len_small by done. fold numToKeep.
    replace (GoInt.len cv =? 0) with false by (symmetry; apply Z.eqb_neq; lia).
    replace (numToKeep <=? 0) with false by (symmetry; apply Z.leb_gt; lia).
    simpl. intros Hcb.
    repeat (case_match || simplify_option_eq); done.
Qed.

Lemma callback_goodBatch (st st' : captured) (cv : bytes) (r : Z)
    (res : bytes * WriteOptions * option error) :
  goodConfig cfg → goodBatch (entries st) →
  callback cfg st cv r = Some (st', res) → goodBatch (entries st').
Proof.
  intros Hcfg Hbatch Hcb. rewrite (callback_entries _ _ _ _ _ Hcfg Hbatch Hcb).
  destruct Hbatch as [Hlen Hsome]. split; [|by apply Forall_drop].
  unfold GoInt.len in *. rewrite length_drop. lia.
Qed.

(** Every [return] of the callback has a nil error. *)
Lemma callback_err_nil (st st' : captured) (cv out : bytes) (r : Z)
    (opts : WriteOptions) (err : option error) :
  callback cfg st cv r = Some (st', (out, opts, err)) → err = None.
Proof.
  unfold callback, appendEncoded. intros Hcb.
  repeat (case_match || simplify_option_eq); done.
Qed.

(** The callback returns on every good batch. *)
Lemma callback_returns (st : captured) (cv : bytes) (r : Z) :
  goodConfig cfg → goodBatch (entries st) →
  ∃ st' out, callback (error:=error) cfg st cv r = Some (st', (out, Raw, None)).
Proof.
  intros Hcfg Hbatch.
  set (numToKeep := MaxChangeLogLength cfg - GoInt.len (entries st)).
  destruct (decide (GoInt.len cv = 0 ∨ numToKeep ≤ 0)) as [HA|HA].
  - rewrite callback_case_A by done. eauto.
  - pose proof (callback_case_BC (error:=error) cfg st cv r Hcfg Hbatch) as Hret.
    cbv zeta in Hret. fold numToKeep in Hret.
    specialize (Hret ltac:(lia) ltac:(lia)). unfold returned in Hret.
    destruct (callback cfg st cv r) as [[st' [[out opts] err]]|] eqn:Hcb; [|done].
    simpl in Hret. simplify_eq. eauto.
Qed.

(** The bytes returned depend on the captured variables through [entries]
    alone. *)
Lemma callback_reads_entries (st1 st2 : captured) (cv : bytes) (r : Z) :
  entries st1 = entries st2 →
  returned (callback (error:=error) cfg st1 cv r) = returned (callback cfg st2 cv r).
Proof.
  destruct st1, st2. simpl. intros ->.
  unfold returned, callback, appendEncoded. simpl.
  destruct (_ || _).
  { destruct (if _ <? 0 then _ else _) as [es|]; simpl; [|done].
    by destruct (addAll emptyLog es). }
  destruct (fullUpdateDecision cfg cv r);
    [destruct (TruncateEncodedChangeLog _ _ _) as [removed newValue];
     destruct (removed >? 0)|];
    by destruct (encodeAll _).
Qed.

Lemma WriteUpdate_callback (k : string) (conflicts : list (Z * bytes))
    (final : Z * option error) :
  ∀ (s : gmap string bytes) (st : captured),
  goodConfig cfg → goodBatch (entries st) →
  ∃ s' st', WriteUpdate (callback cfg) k s st conflicts final = Some (s', st', final.2).
Proof.
  induction conflicts as [|[o other] rest IH]; intros s st Hcfg Hbatch; simpl.
  - destruct (callback_returns st (default [] (s !! k)) final.1 Hcfg Hbatch)
      as (st' & out & ->). simpl.
    destruct final.2; eauto.
  - destruct (callback_returns st (default [] (s !! k)) o Hcfg Hbatch)
      as (st' & out & Hcb). rewrite Hcb. simpl.
    apply IH; [done|]. by eapply callback_goodBatch.
Qed.

Lemma WriteUpdate_callback_error (k : string) (conflicts : list (Z * bytes))
    (final : Z * option error) :
  ∀ (s s' : gmap string bytes) (st st' : captured) (e : error),
  WriteUpdate (callback cfg) k s st conflicts final = Some (s', st', Some e) →
  final.2 = Some e.
Proof.
  induction conflicts as [|[o other] rest IH]; intros s s' st st' e; simpl.
  - destruct (callback cfg st (default [] (s !! k)) final.1)
      as [[st1 [[out opts] err]]|] eqn:Hcb; simpl; [|done].
    rewrite (callback_err_nil _ _ _ _ _ _ _ Hcb).
    destruct final.2; naive_solver.
  - destruct (callback cfg st (default [] (s !! k)) o)
      as [[st1 [[out opts] err]]|] eqn:Hcb; simpl; [|done].
    rewrite (callback_err_nil _ _ _ _ _ _ _ Hcb). apply IH.
Qed.

(** C10.  Whenever the update callback returns, on any input, its error is
    nil; on a good batch it does return; so the commit path returns exactly
    the error of the store's atomic update, and an error it returns is the
    store's. *)
Theorem callback_never_fails :
  (∀ (st st' : captured) (cv out : bytes) (r : Z) (opts : WriteOptions)
     (err : option error),
     callback cfg st cv r = Some (st', (out, opts, err)) → err = None)
  ∧ (∀ (st : captured) (cv : bytes) (r : Z),
       goodConfig cfg → goodBatch (entries st) →
       ∃ st' out, callback (error:=error) cfg st cv r = Some (st', (out, Raw, None)))
  ∧ (∀ channelName s es conflicts (final : Z * option error),
       goodConfig cfg → goodBatch es →
       ∃ s' st', addToChangeLog_ cfg channelName s es conflicts final
                 = Some (s', st', final.2))
  ∧ (∀ channelName s es conflicts (final : Z * option error) s' st' e,
       addToChangeLog_ cfg channelName s es conflicts final = Some (s', st', Some e) →
       final.2 = Some e).
Proof.
  split; [|split; [|split]].
  - apply callback_err_nil.
  - apply callback_returns.
  - intros channelName s es conflicts final Hcfg Hbatch.
    unfold addToChangeLog_. by apply WriteUpdate_callback.
  - intros channelName s es conflicts final s' st' e.
    unfold addToChangeLog_. apply WriteUpdate_callback_error.
Qed.

End callback_retry.

Section callback_reinvoke.
Context {codec : Codec} {error : Type}.
Variable cfg : Config.

(** The draw matters through the full-compaction decision alone. *)
Lemma callback_reads_decision (st : captured) (cv : bytes) (r1 r2 : Z) :
  fullUpdateDecision cfg cv r1 = fullUpdateDecision cfg cv r2 →
  callback (error:=error) cfg st cv r1 = callback cfg st cv r2.
Proof. unfold callback. simpl. by intros ->. Qed.

(** C8, as the code has it.  The update callback is not free of side
    effects: it assigns the captured [fullUpdate], [removedCount] and
    [fullUpdateAttempts] and, in the overflow case, the captured batch.  What
    holds for a good batch is this.  The bytes an invocation returns are
    determined by the batch, the current bytes and the draw of
    [rand.Intn(100)], and by the first two alone when
    [AlwaysCompactChangeLog] is on or the current bytes are no longer than
    20000.  And the assignments do not show in later results: an invocation
    on the captured variables an earlier invocation left returns the bytes it
    would have returned on the original ones. *)
Theorem callback_reinvocation (st st' : captured) (cv : bytes) (r : Z)
    (res : bytes * WriteOptions * option error) :
  goodConfig cfg → goodBatch (entries st) →
  callback cfg st cv r = Some (st', res) →
  (∀ st0, entries st0 = entries st →
     returned (callback cfg st0 cv r) = Some res)
  ∧ (∀ r2, AlwaysCompactChangeLog cfg = true ∨ GoInt.len cv ≤ 20000 →
       returned (callback cfg st cv r2) = Some res)
  ∧ (∀ cv2 r2,
       returned (callback (error:=error) cfg st' cv2 r2)
       = returned (callback cfg st cv2 r2)).
Proof.
  intros Hcfg Hbatch Hcb. split; [|split].
  - intros st0 Hst0. rewrite (callback_reads_entries cfg st0 st) by done.
    unfold returned. by rewrite Hcb.
  - intros r2 Hno. rewrite (callback_reads_decision st cv r2 r).
    { unfold returned. by rewrite Hcb. }
    unfold fullUpdateDecision. destruct Hno as [->|Hshort]; [done|].
    rewrite Z.gtb_ltb.
    by replace (20000 <? GoInt.len cv) with false by (symmetry; apply Z.ltb_ge; lia).
  - intros cv2 r2.
    pose proof (callback_entries cfg _ _ _ _ _ Hcfg Hbatch Hcb) as Hentries.
    pose proof (callback_goodBatch cfg _ _ _ _ _ Hcfg Hbatch Hcb) as Hbatch'.
    set (numToKeep := MaxChangeLogLength cfg - GoInt.len (entries st)).
    destruct (decide (numToKeep < 0)) as [Hneg|Hpos].
    + unfold returned.
      rewrite (callback_case_A cfg st cv2 r2 Hcfg Hbatch) by (right; fold numToKeep; lia).
      assert (Hlen' : GoInt.len (entries st') = MaxChangeLogLength cfg).
      { rewrite Hentries. unfold GoInt.len in *. rewrite length_drop.
        unfold goodConfig in Hcfg. subst numToKeep. unfold GoInt.len in *. lia. }
      rewrite (callback_case_A cfg st' cv2 r2 Hcfg Hbatch') by (right; lia).
      simpl. rewrite Hlen'.
      replace (Z.to_nat (- (MaxChangeLogLength cfg - MaxChangeLogLength cfg))) with 0%nat by lia.
      rewrite drop_0, Hentries. fold numToKeep.
      by replace (- numToKeep) with (GoInt.len (entries st) - MaxChangeLogLength cfg)
        by (subst numToKeep; lia).
    + apply callback_reads_entries. rewrite Hentries.
      by replace (Z.to_nat _) with 0%nat by (subst numToKeep; lia).
Qed.

End callback_reinvoke.

(** An invocation that reassigns the captured batch: with
    [MaxChangeLogLength = 5], an empty document and a batch of 7, the
    captured [entries] hold the last five entries after the invocation.  And
    two invocations on the same document and batch that return different
    bytes: on a document of 23100 bytes, with [MaxChangeLogLength = 1000] and
    one new change, the draw 0 compacts the log to 11000 bytes and the draw
    99 appends to it. *)
Lemma callback_assigns_captured :
  let st := mkCaptured false 0 0 sample.batch7 in
  let one := mkCaptured false 0 0 [sample.change 8] in
  (entries ∘ fst <$> callback (codec:=sample.codec) (error:=storeError)
      (mkConfig 5 false false) st [] 0) = Some (drop 2 sample.batch7)
  ∧ drop 2 sample.batch7 ≠ entries st
  ∧ (λ res, GoInt.len res.1.1)
      <$> returned (callback (codec:=sample.codec) (error:=storeError)
                      (mkConfig 1000 false false) one sample.longDocument 0)
    = Some 11000
  ∧ (λ res, GoInt.len res.1.1)
      <$> returned (callback (codec:=sample.codec) (error:=storeError)
                      (mkConfig 1000 false false) one sample.longDocument 99)
    = Some 23111.
Proof.
  split; [reflexivity|]. split; [discriminate|].
  split; vm_compute; reflexivity.
Qed.

(** ** Draining the mailbox *)

Section drain.
Context {codec : Codec} {error : Type}.
Variable channelName : string.

Lemma appendsOf_app (evs1 evs2 : list ioEvent) :
  appendsOf (evs1 ++ evs2) = appendsOf evs1 ++ appendsOf evs2.
Proof. unfold appendsOf. by rewrite omap_app, filter_app. Qed.


Lemma appendsOf_Send (e : changeEntry) (evs : list ioEvent) :
  appendsOf (Send e :: evs)
  = if replacementLog e is Some _ then appendsOf evs else e :: appendsOf evs.
Proof.
  unfold appendsOf. simpl. rewrite filter_cons.
  destruct (replacementLog e) eqn:He; case_decide; done.
Qed.

Lemma seedsOf_Send (e : changeEntry) (evs : list ioEvent) :
  seedsOf (Send e :: evs)
  = if replacementLog e is Some log then log :: seedsOf evs else seedsOf evs.
Proof. unfold seedsOf. simpl. by destruct (replacementLog e). Qed.



Lemma readMore_Some (io : list ioEvent) :
  ∀ (entries batch : list changeEntry) (s s' : gmap string bytes) (io' : list ioEvent),
  readMore (error:=error) channelName entries s io = Some (batch, s', io') →
  ∃ consumed,
    io = consumed ++ io' ∧ batch = entries ++ appendsOf consumed ∧
    s' = seedAll (error:=error) channelName s (seedsOf consumed) ∧
    (GoInt.len entries ≤ kChannelLogWriterQueueLength →
     GoInt.len batch ≤ kChannelLogWriterQueueLength).
Proof.
  assert (Hstop : ∀ (entries : list changeEntry) (s : gmap string bytes) io0,
    ∃ consumed : list ioEvent,
      io0 = consumed ++ io0 ∧ entries = entries ++ appendsOf consumed ∧
      s = seedAll (error:=error) channelName s (seedsOf consumed) ∧
      (GoInt.len entries ≤ kChannelLogWriterQueueLength →
       GoInt.len entries ≤ kChannelLogWriterQueueLength)).
  { intros. exists []. by rewrite app_nil_r. }
  induction io as [|ev io IH]; intros entries batch s s' io' Hread; simpl in Hread.
  { destruct (_ <? _); simplify_eq; apply Hstop. }
  destruct (GoInt.len entries <? kChannelLogWriterQueueLength) eqn:Hroom;
    [|simplify_eq; apply Hstop].
  apply Z.ltb_lt in Hroom.
  destruct ev as [entry| |]; [| |simplify_eq; apply Hstop].
  - destruct (replacementLog entry) as [log|] eqn:Hlog.
    + unfold addChangeLog_ in Hread. simpl in Hread.
      apply IH in Hread as (consumed & -> & -> & -> & Hlen).
      exists (Send entry :: consumed).
      rewrite appendsOf_Send, seedsOf_Send, Hlog. done.
    + apply IH in Hread as (consumed & -> & -> & -> & Hlen).
      exists (Send entry :: consumed).
      rewrite appendsOf_Send, seedsOf_Send, Hlog, <-app_assoc.
      do 3 (split; [done|]). intros _. rewrite app_assoc. apply Hlen.
      unfold GoInt.len in *. rewrite length_app. simpl. lia.
  - simplify_eq. exists [Idle]. rewrite app_nil_r. done.
Qed.

End drain.

Section drain_batch.
Context {codec : Codec} {error : Type}.
Variable channelName : string.


Lemma appendsOf_sent (evs : list ioEvent) (e : changeEntry) :
  e ∈ appendsOf evs → e ∈ omap sent evs ∧ replacementLog e = None.
Proof. unfold appendsOf. intros He. by apply list_elem_of_filter in He as [? ?]. Qed.

(** The reader returns as soon as an append-type item or the close of the
    channel is in sight. *)
Lemma readChange__returns (io : list ioEvent) :
  ∀ s : gmap string bytes,
  Close ∈ io ∨ appendsOf io ≠ [] →
  is_Some (readChange_ (error:=error) channelName s io).
Proof.
  induction io as [|ev io IH]; intros s Hsee.
  { destruct Hsee as [Hc|Ha]; [by apply elem_of_nil in Hc | done]. }
  destruct ev as [entry| |]; simpl; [| |done].
  - destruct (replacementLog entry) as [log|] eqn:Hlog; [|done].
    unfold addChangeLog_. simpl. apply IH.
    destruct Hsee as [Hc|Ha]; [left; by apply elem_of_cons in Hc as [?|?] | right].
    by rewrite appendsOf_Send, Hlog in Ha.
  - apply IH.
    destruct Hsee as [Hc|Ha]; [left; by apply elem_of_cons in Hc as [?|?] | by right].
Qed.

Lemma readMore_returns (io : list ioEvent) :
  ∀ (entries : list changeEntry) (s : gmap string bytes),
  is_Some (readMore (error:=error) channelName entries s io).
Proof.
  induction io as [|ev io IH]; intros entries s; simpl.
  { by destruct (_ <? _). }
  destruct (_ <? _); [|done].
  destruct ev as [entry| |]; [|done..].
  destruct (replacementLog entry) as [log|] eqn:Hlog; [|apply IH].
  unfold addChangeLog_. simpl. apply IH.
Qed.

Lemma readChanges__returns (s : gmap string bytes) (io : list ioEvent) :
  Close ∈ io ∨ appendsOf io ≠ [] →
  is_Some (readChanges_ (error:=error) channelName s io).
Proof.
  intros Hsee. unfold readChanges_.
  destruct (readChange__returns io s Hsee) as [[[entry s1] io1] ->]. simpl.
  destruct entry as [entry|]; [|done].
  by destruct (readMore_returns io1 [entry] s1) as [[[batch s2] io2] ->].
Qed.


End drain_batch.

(** ** Sorting the batch *)

Lemma Less_lessBySequence (a b : changeEntry) :
  is_Some (logEntry a) → is_Some (logEntry b) →
  Less a b = Some (lessBySequence a b).
Proof. intros [x Hx] [y Hy]. unfold Less, lessBySequence, sequenceOf. by rewrite Hx, Hy. Qed.

Lemma lessBySequence_swo : StrictWeakOrder lessBySequence.
Proof.
  unfold StrictWeakOrder, lessBySequence. split; [|split].
  - intros a. apply Z.ltb_irrefl.
  - intros a b c ?%Z.ltb_lt ?%Z.ltb_lt. apply Z.ltb_lt. lia.
  - intros a b c ?%Z.ltb_ge ?%Z.ltb_ge. apply Z.ltb_ge. lia.
Qed.

Section sample_sorts.
Context {A : Type} (less : A → A → bool).

Lemma insertBefore_perm (x : A) (l : list A) : sample.insertBefore less x l ≡ₚ x :: l.
Proof.
  induction l as [|y l IH]; simpl; [done|].
  destruct (less y x); [|done]. by rewrite IH, Permutation_swap.
Qed.


Lemma insertionSort_perm (l : list A) : sample.insertionSort less l ≡ₚ l.
Proof.
  induction l as [|x l IH]; simpl; [done|].
  by rewrite insertBefore_perm, IH.
Qed.


Hypothesis Hswo : StrictWeakOrder less.

Lemma less_asym (a b : A) : less a b = true → less b a = false.
Proof.
  destruct Hswo as (Hirr & Htr & _). intros Hab.
  destruct (less b a) eqn:Hba; [|done].
  by rewrite <-(Hirr a), (Htr a b a).
Qed.

Lemma insertBefore_sorted (x : A) (l : list A) :
  StronglySorted (λ a b, less b a = false) l →
  StronglySorted (λ a b, less b a = false) (sample.insertBefore less x l).
Proof.
  destruct Hswo as (Hirr & Htr & Hneg).
  induction 1 as [|y l Hl IH Hy]; simpl.
  { repeat constructor. }
  destruct (less y x) eqn:Hyx.
  - constructor; [done|]. rewrite insertBefore_perm.
    constructor; [by apply less_asym | done].
  - constructor; [by constructor|].
    constructor; [done|].
    eapply Forall_impl; [exact Hy|]. simpl. intros b Hb. by apply (Hneg b y x).
Qed.


End sample_sorts.

Lemma insertionSort_contract {A} : SortContract (@sample.insertionSort A).
Proof.
  split; [intros; apply insertionSort_perm|].
  intros less l Hswo. induction l as [|x l IH]; simpl; [constructor|].
  by apply insertBefore_sorted.
Qed.


Lemma forallb_logEntry (changes : list changeEntry) :
  Forall (λ e, is_Some (logEntry e)) changes →
  forallb (λ e, bool_decide (is_Some (logEntry e))) changes = true.
Proof.
  induction 1 as [|e es He _ IH]; simpl; [done|].
  by rewrite bool_decide_eq_true_2, IH.
Qed.

Lemma sorted_lessBySequence (l : list changeEntry) :
  StronglySorted (λ a b, lessBySequence b a = false) l →
  StronglySorted (λ a b, sequenceOf a ≤ sequenceOf b) l.
Proof.
  induction 1 as [|x l Hl IH Hx]; constructor; [done|].
  eapply Forall_impl; [exact Hx|]. simpl. unfold lessBySequence.
  by intros b ?%Z.ltb_ge.
Qed.

Lemma fmap_NoDup_inj {A B} (f : A → B) (l : list A) (x y : A) :
  NoDup (f <$> l) → x ∈ l → y ∈ l → f x = f y → x = y.
Proof.
  induction l as [|z l IH]; simpl; intros Hnd Hx Hy Hf.
  { by apply elem_of_nil in Hx. }
  apply NoDup_cons in Hnd as [Hz Hnd].
  apply elem_of_cons in Hx as [->|Hx]; apply elem_of_cons in Hy as [->|Hy];
    [done| | |by apply IH].
  - exfalso. apply Hz. rewrite Hf. by apply list_elem_of_fmap_2.
  - exfalso. apply Hz. rewrite <-Hf. by apply list_elem_of_fmap_2.
Qed.

(** A batch of distinct sequences has one ascending arrangement. *)
Lemma sorted_by_sequence_unique (l1 l2 : list changeEntry) :
  NoDup (sequenceOf <$> l1) → l1 ≡ₚ l2 →
  StronglySorted (λ a b, sequenceOf a ≤ sequenceOf b) l1 →
  StronglySorted (λ a b, sequenceOf a ≤ sequenceOf b) l2 →
  l1 = l2.
Proof.
  intros Hnd Hperm Hs1 Hs2.
  apply (StronglySorted_unique_strong (λ a b, sequenceOf a ≤ sequenceOf b)); [|done..].
  intros x1 x2 Hx1 Hx2 H12 H21.
  apply (fmap_NoDup_inj sequenceOf l1); [done|done| |lia].
  by rewrite Hperm.
Qed.

Section massage.
Variable sortSort : (changeEntry → changeEntry → bool) → list changeEntry → list changeEntry.
Hypothesis Hsort : SortContract sortSort.

Lemma massageChanges_sorted (changes : list changeEntry) :
  Forall (λ e, is_Some (logEntry e)) changes →
  massageChanges sortSort changes = Some (sortSort lessBySequence changes)
  ∧ sortSort lessBySequence changes ≡ₚ changes
  ∧ StronglySorted (λ a b, sequenceOf a ≤ sequenceOf b) (sortSort lessBySequence changes).
Proof.
  intros Hsome. destruct Hsort as [Hperm Hsorted].
  unfold massageChanges. rewrite forallb_logEntry by done.
  split; [done|]. split; [apply Hperm|].
  apply sorted_lessBySequence, Hsorted, lessBySequence_swo.
Qed.


End massage.

Section writer_cycle.
Context {codec : Codec} {error : Type}.
Variable sortSort : (changeEntry → changeEntry → bool) → list changeEntry → list changeEntry.
Hypothesis Hsort : SortContract sortSort.



End writer_cycle.


(** ** The fan-out *)

Lemma lor_ldiff_same (a b : Z) : Z.lor (Z.ldiff a b) b = Z.lor a b.
Proof.
  apply Z.bits_inj'. intros n Hn.
  rewrite !Z.lor_spec, Z.ldiff_spec.
  by destruct (Z.testbit a n), (Z.testbit b n).
Qed.

Lemma ldiff_lor_same (a b : Z) : Z.ldiff (Z.lor a b) b = Z.ldiff a b.
Proof.
  apply Z.bits_inj'. intros n Hn.
  rewrite !Z.ldiff_spec, Z.lor_spec.
  by destruct (Z.testbit a n), (Z.testbit b n).
Qed.

Lemma ldiff_ldiff_same (a b : Z) : Z.ldiff (Z.ldiff a b) b = Z.ldiff a b.
Proof.
  apply Z.bits_inj'. intros n Hn.
  rewrite !Z.ldiff_spec.
  by destruct (Z.testbit a n), (Z.testbit b n).
Qed.



Section fanout.
Variable Removed : Z.

Lemma agree_withRemoved (a b : LogEntry) :
  agree Removed a b → withRemoved Removed a = withRemoved Removed b.
Proof.
  intros (Hs & Hd & Hr & Hf). unfold withRemoved, setFlags.
  rewrite Hs, Hd, Hr. f_equal.
  by rewrite <-(lor_ldiff_same (Flags a)), Hf, lor_ldiff_same.
Qed.

Lemma agree_withoutRemoved (a b : LogEntry) :
  agree Removed a b → withoutRemoved Removed a = withoutRemoved Removed b.
Proof.
  intros (Hs & Hd & Hr & Hf). unfold withoutRemoved, setFlags.
  by rewrite Hs, Hd, Hr, Hf.
Qed.

Lemma withRemoved_agree (e : LogEntry) : agree Removed (withRemoved Removed e) e.
Proof. unfold agree. simpl. by rewrite ldiff_lor_same. Qed.

Lemma withoutRemoved_agree (e : LogEntry) : agree Removed (withoutRemoved Removed e) e.
Proof. unfold agree. simpl. by rewrite ldiff_ldiff_same. Qed.

(** The loop sends each channel the copy made from the entry the caller
    passed, whatever it assigned to [entry.Flags] for the channels before. *)
Lemma addToChangeLogs_range_sends (entry : LogEntry) (parentRevID : string)
    (order : list (string * option ChannelRemoval)) :
  ∀ (c : gmap string (list changeEntry)) (cur : LogEntry),
  agree Removed cur entry →
  ∃ cur', addToChangeLogs_range Removed order c cur parentRevID
          = (foldl (deliver parentRevID) c (sends Removed entry order), cur')
          ∧ agree Removed cur' entry.
Proof.
  induction order as [|[channel removal] order IH]; intros c cur Hcur; simpl.
  { by exists cur. }
  destruct removal as [r|]; unfold sends; simpl.
  - destruct Hcur as (Hs & Hrest). rewrite Hs.
    destruct (decide (Seq r = Sequence entry)) as [Heq|Hne].
    + rewrite bool_decide_eq_false_2 by (by intros ?).
      rewrite bool_decide_eq_true_2 by done. simpl.
      fold (withRemoved Removed cur).
      rewrite (agree_withRemoved cur entry) by done.
      apply IH, withRemoved_agree.
    + rewrite bool_decide_eq_true_2 by done.
      rewrite bool_decide_eq_false_2 by done. simpl.
      by apply IH.
  - fold (withoutRemoved Removed cur).
    rewrite (agree_withoutRemoved cur entry) by done.
    apply IH, withoutRemoved_agree.
Qed.

Lemma mailbox_deliver (parentRevID : string) (c : gmap string (list changeEntry))
    (p : string * LogEntry) (channel : string) :
  mailbox (deliver parentRevID c p) channel
  = mailbox c channel
    ++ (if bool_decide (p.1 = channel) then [addChange p.2 parentRevID] else []).
Proof.
  unfold deliver, addToChangeLog, mailbox.
  destruct (decide (p.1 = channel)) as [<-|Hne].
  - by rewrite lookup_insert_eq, bool_decide_eq_true_2.
  - rewrite lookup_insert_ne, bool_decide_eq_false_2 by done. by rewrite app_nil_r.
Qed.

Lemma mailbox_foldl_deliver (parentRevID : string) (l : list (string * LogEntry))
    (channel : string) :
  ∀ c : gmap string (list changeEntry),
  mailbox (foldl (deliver parentRevID) c l) channel
  = mailbox c channel
    ++ ((λ p, addChange p.2 parentRevID) <$> filter (λ p, p.1 = channel) l).
Proof.
  induction l as [|p l IH]; intros c; simpl.
  { by rewrite app_nil_r. }
  rewrite IH, mailbox_deliver, filter_cons.
  destruct (decide (p.1 = channel)) as [Heq|Hne].
  - by rewrite bool_decide_eq_true_2, <-app_assoc.
  - by rewrite bool_decide_eq_false_2, app_nil_r.
Qed.

(** What one channel is sent by a loop over a map: keys occur once. *)
Lemma sends_channel (entry : LogEntry) (order : list (string * option ChannelRemoval))
    (channel : string) :
  NoDup order.*1 →
  (∀ removal, (channel, removal) ∈ order →
     filter (λ p, p.1 = channel) (sends Removed entry order)
     = match copyFor Removed entry removal with
       | Some e => [(channel, e)]
       | None => []
       end)
  ∧ (channel ∉ order.*1 → filter (λ p, p.1 = channel) (sends Removed entry order) = []).
Proof.
  induction order as [|[ch rem] order IH]; intros Hnd.
  { split; [intros removal Hin; by apply elem_of_nil in Hin | done]. }
  rewrite fmap_cons in Hnd. simpl in Hnd.
  apply NoDup_cons in Hnd as [Hch Hnd]. destruct (IH Hnd) as [IHin IHout].
  assert (Hhead : ∀ e, copyFor Removed entry rem = Some e →
            sends Removed entry ((ch, rem) :: order) = (ch, e) :: sends Removed entry order).
  { intros e He. unfold sends. simpl. by rewrite He. }
  assert (Hskip : copyFor Removed entry rem = None →
            sends Removed entry ((ch, rem) :: order) = sends Removed entry order).
  { intros He. unfold sends. simpl. by rewrite He. }
  split.
  - intros removal Hin. apply elem_of_cons in Hin as [Heq|Hin].
    + simplify_eq. destruct (copyFor Removed entry rem) as [e|] eqn:He.
      * rewrite (Hhead e) by done. rewrite filter_cons_True by done.
        by rewrite IHout.
      * rewrite Hskip by done. by apply IHout.
    + assert (ch ≠ channel).
      { intros ->. apply Hch. by apply (list_elem_of_fmap_2 fst) in Hin. }
      destruct (copyFor Removed entry rem) as [e|] eqn:He.
      * rewrite (Hhead e) by done. rewrite filter_cons_False by done. by apply IHin.
      * rewrite Hskip by done. by apply IHin.
  - intros Hout. rewrite fmap_cons in Hout. simpl in Hout.
    apply not_elem_of_cons in Hout as [Hne Hout].
    destruct (copyFor Removed entry rem) as [e|] eqn:He.
    + rewrite (Hhead e) by done. rewrite filter_cons_False by (simpl; congruence).
      by apply IHout.
    + rewrite Hskip by done. by apply IHout.
Qed.

End fanout.

Section fanout_all.
Context {error : Type}.
Variable cfg : Config.
Variable Removed : Z.

Lemma agree_refl (e : LogEntry) : agree Removed e e.
Proof. by unfold agree. Qed.

(** The mailbox of every channel after a call, for any order of the loop. *)
Lemma addToChangeLogs_mailbox (m : gmap string (option ChannelRemoval))
    (order : list (string * option ChannelRemoval))
    (c : gmap string (list changeEntry)) (entry : LogEntry) (parentRevID : string)
    (channel : string) :
  order ≡ₚ map_to_list m →
  mailbox (addToChangeLogs (error:=error) cfg Removed order c entry parentRevID).1 channel
  = mailbox c channel ++ itemsFor cfg Removed m entry parentRevID channel.
Proof.
  intros Horder. unfold addToChangeLogs, itemsFor.
  destruct (addToChangeLogs_range_sends Removed entry parentRevID order c entry
              (agree_refl entry)) as (cur' & -> & Hcur').
  assert (Hloop : (λ p : string * LogEntry, addChange p.2 parentRevID)
                    <$> filter (λ p, p.1 = channel) (sends Removed entry order)
                  = match m !! channel ≫= copyFor Removed entry with
                    | Some e => [addChange e parentRevID]
                    | None => []
                    end).
  { assert (Hnd : NoDup order.*1).
    { rewrite Horder. apply NoDup_fst_map_to_list. }
    destruct (sends_channel Removed entry order channel Hnd) as [Hin Hout].
    destruct (m !! channel) as [removal|] eqn:Hm; simpl.
    - rewrite (Hin removal) by (by rewrite Horder, elem_of_map_to_list).
      by destruct (copyFor Removed entry removal).
    - rewrite Hout; [done|].
      intros ([ch removal] & -> & Hp)%list_elem_of_fmap.
      rewrite Horder, elem_of_map_to_list in Hp. simpl in Hm. congruence. }
  destruct (EnableStarChannelLog cfg); simpl.
  - fold (withoutRemoved Removed cur').
    rewrite (agree_withoutRemoved Removed cur' entry) by done.
    change (addToChangeLog ?c0 "*" ?e parentRevID)
      with (deliver parentRevID c0 ("*", e)).
    rewrite mailbox_deliver, mailbox_foldl_deliver, Hloop, <-app_assoc. simpl.
    do 2 f_equal. destruct (decide ("*" = channel)) as [<-|Hne].
    + by rewrite !bool_decide_eq_true_2.
    + by rewrite !bool_decide_eq_false_2.
  - by rewrite mailbox_foldl_deliver, Hloop, app_nil_r.
Qed.


End fanout_all.

(** ** The read path *)

Section read.
Context {codec : Codec} {error : Type}.
Variable IsDocNotFoundError : error → bool.
Variable GetRaw : string → option bytes * option error.

Lemma decodeChannelLog_err (raw : option bytes) :
  (decodeChannelLog (error:=error) raw).2 = None.
Proof. by destruct raw. Qed.

Lemma getChangeLog_read (channelName : string) (afterSeq : Z) (raw : bytes) :
  GetRaw (channelLogDocID channelName) = (Some raw, None) →
  getChangeLog IsDocNotFoundError GetRaw channelName afterSeq
  = Some (Some (FilterAfter afterSeq (DecodeChangeLog raw)), None).
Proof. intros Hget. unfold getChangeLog. by rewrite Hget. Qed.

Lemma getChangeLog_error (channelName : string) (afterSeq : Z)
    (log : option ChangeLog) (e : error) :
  getChangeLog IsDocNotFoundError GetRaw channelName afterSeq = Some (log, Some e) →
  log = None ∧ IsDocNotFoundError e = false
  ∧ ∃ raw, GetRaw (channelLogDocID channelName) = (raw, Some e).
Proof.
  unfold getChangeLog.
  destruct (GetRaw (channelLogDocID channelName)) as [raw [err|]].
  - destruct (IsDocNotFoundError err) eqn:Hnf; intros Hget; simplify_eq. eauto.
  - destruct raw as [raw|]; simpl; intros Hget; simplify_eq.
Qed.

(** C6.  [getChangeLog] fetches the channel's raw document, decodes it and
    returns, with a nil error, the log filtered to the entries with
    [Sequence > afterSeq] (the entries of the decoded log that satisfy it, in
    their order); when the store reports that the document was not found it
    returns a nil log and a nil error; any other store error is returned as
    the error, with a nil log. *)
Theorem getChangeLog_results (channelName : string) (afterSeq : Z) :
  (∀ raw, GetRaw (channelLogDocID channelName) = (Some raw, None) →
     ∃ log,
       getChangeLog IsDocNotFoundError GetRaw channelName afterSeq = Some (Some log, None)
       ∧ Entries log
         = filter (λ e, afterSeq < Sequence e) (Entries (DecodeChangeLog raw))
       ∧ Forall (λ e, afterSeq < Sequence e) (Entries log))
  ∧ (∀ raw err, GetRaw (channelLogDocID channelName) = (raw, Some err) →
       IsDocNotFoundError err = true →
       getChangeLog IsDocNotFoundError GetRaw channelName afterSeq = Some (None, None))
  ∧ (∀ raw err, GetRaw (channelLogDocID channelName) = (raw, Some err) →
       IsDocNotFoundError err = false →
       getChangeLog IsDocNotFoundError GetRaw channelName afterSeq
       = Some (None, Some err)).
Proof.
  split; [|split].
  - intros raw Hget. eexists. split; [by apply getChangeLog_read|].
    split; [done|]. simpl. apply Forall_forall. intros e He.
    by apply list_elem_of_filter in He as [? _].
  - intros raw err Hget Hnf. unfold getChangeLog. by rewrite Hget, Hnf.
  - intros raw err Hget Hnf. unfold getChangeLog. by rewrite Hget, Hnf.
Qed.

(** C7, as the code has it.  [decodeChannelLog] returns a nil error for every
    value, so a read that got bytes from the store returns the log decoded
    from them and a nil error, whatever the bytes; an error [getChangeLog]
    returns is the error of the store's read, it is not the not-found error,
    and it comes with a nil log. *)
Theorem getChangeLog_error_is_store_error (channelName : string) (afterSeq : Z) :
  (∀ raw : option bytes, (decodeChannelLog (error:=error) raw).2 = None)
  ∧ (∀ raw, GetRaw (channelLogDocID channelName) = (Some raw, None) →
       getChangeLog IsDocNotFoundError GetRaw channelName afterSeq
       = Some (Some (FilterAfter afterSeq (DecodeChangeLog raw)), None))
  ∧ (∀ log e,
       getChangeLog IsDocNotFoundError GetRaw channelName afterSeq = Some (log, Some e) →
       log = None ∧ IsDocNotFoundError e = false
       ∧ ∃ raw, GetRaw (channelLogDocID channelName) = (raw, Some e)).
Proof.
  split; [apply decodeChannelLog_err|].
  split; [apply getChangeLog_read | apply getChangeLog_error].
Qed.

End read.

(** No stored value makes the read path return an error.  Bytes that are not
    the encoding of a log (here a single byte, read by the sample codec) come
    back as a log with a nil error; and there are no codec, store and bytes
    such that the read of the bytes succeeds and [getChangeLog] returns a
    non-nil error. *)
Lemma getChangeLog_no_decode_error :
  getChangeLog (codec:=sample.codec) isKeyNotFound
    (store_GetRaw KeyNotFound {[channelLogDocID "ch" := [Byte.x07]]}) "ch" 0
  = Some (Some (mkChangeLog []), None)
  ∧ ¬ ∃ (error : Type) (codec : Codec) (isNotFound : error → bool)
        (GetRaw : string → option bytes * option error)
        (channelName : string) (afterSeq : Z) (raw : bytes)
        (log : option ChangeLog) (e : error),
        GetRaw (channelLogDocID channelName) = (Some raw, None)
        ∧ getChangeLog isNotFound GetRaw channelName afterSeq = Some (log, Some e).
Proof.
  split; [by vm_compute|].
  intros (error & codec & isNotFound & GetRaw & channelName & afterSeq & raw & log & e
          & Hget & Hread).
  rewrite (getChangeLog_read isNotFound GetRaw channelName afterSeq raw Hget) in Hread.
  discriminate Hread.
Qed.

(** * Worked examples

    The theorems above at concrete inputs, on the sample collaborators. *)

Lemma goodBatch_batch7 : goodBatch sample.batch7.
Proof.
  split; [unfold GoInt.len, kChannelLogWriterQueueLength; simpl; lia|].
  repeat constructor; by eexists.
Defined.

Lemma goodBatch_single (q : Z) : goodBatch [sample.change q].
Proof.
  split; [unfold GoInt.len, kChannelLogWriterQueueLength; simpl; lia|].
  repeat constructor; by eexists.
Defined.

Lemma goodConfig_small (n : Z) (a b : bool) :
  0 ≤ n ≤ 1000 → goodConfig (mkConfig n a b).
Proof. unfold goodConfig, GoInt.max_int. simpl. lia. Defined.

Lemma goodConfig_5 : goodConfig (mkConfig 5 false false).
Proof. apply goodConfig_small. lia. Defined.

Lemma callback_replaces_log_witness :
  goodConfig (mkConfig 5 false false) ∧ goodBatch sample.batch7
  ∧ returned (callback (codec:=sample.codec) (error:=storeError) (mkConfig 5 false false)
                (mkCaptured false 0 0 sample.batch7) [] 0)
    = Some (sample.encodeLog (mkChangeLog (omap logEntry (drop 2 sample.batch7))),
            Raw, None).
Proof.
  split; [exact goodConfig_5|]. split; [exact goodBatch_batch7|].
  refine (proj1 (callback_replaces_log (codec:=sample.codec) (error:=storeError)
                   (mkConfig 5 false false) (mkCaptured false 0 0 sample.batch7) [] 0
                   goodConfig_5 goodBatch_batch7 _)).
  left. reflexivity.
Defined.

Lemma fullUpdate_decision_witness :
  fullUpdateDecision (mkConfig 5 false false) [] 42 = false.
Proof.
  refine (proj1 (proj2 (fullUpdate_decision (codec:=sample.codec) (error:=storeError)
                          (mkConfig 5 false false) [] 42)) _ _).
  - unfold GoInt.len. simpl. lia.
  - reflexivity.
Defined.

(** With [MaxChangeLogLength = 3] and compaction forced, one new change on a
    log of four entries: the two oldest are truncated away and the change is
    appended. *)
Lemma callback_truncate_or_append_witness :
  returned (callback (codec:=sample.codec) (error:=storeError) (mkConfig 3 true false)
              (mkCaptured false 0 0 [sample.change 8]) (sample.encodeLog sample.log4) 0)
  = Some (sample.encodeLog (mkChangeLog [sample.entry 3; sample.entry 4])
            ++ sample.encodeEntry (sample.entry 8) "", Raw, None).
Proof.
  refine (proj1 (callback_truncate_or_append (codec:=sample.codec) (error:=storeError)
                   (mkConfig 3 true false) (mkCaptured false 0 0 [sample.change 8])
                   (sample.encodeLog sample.log4) 0
                   (goodConfig_small 3 true false _) (goodBatch_single 8) _ _)).
  - lia.
  - unfold GoInt.len. simpl. lia.
  - unfold GoInt.len. simpl. lia.
Defined.

(** The retry after an overflow: the second invocation, on the batch the first
    one cut to five entries, returns what the first would have. *)
Lemma callback_reinvocation_witness :
  returned (callback (codec:=sample.codec) (error:=storeError) (mkConfig 5 false false)
              (mkCaptured false 0 0 (drop 2 sample.batch7))
              (sample.encodeLog sample.log4) 7)
  = returned (callback (codec:=sample.codec) (error:=storeError) (mkConfig 5 false false)
                (mkCaptured false 0 0 sample.batch7) (sample.encodeLog sample.log4) 7).
Proof.
  refine (proj2 (proj2 (callback_reinvocation (codec:=sample.codec) (error:=storeError)
                          (mkConfig 5 false false)
                          (mkCaptured false 0 0 sample.batch7)
                          (mkCaptured false 0 0 (drop 2 sample.batch7)) [] 0
                          (sample.encodeLog (mkChangeLog (omap logEntry (drop 2 sample.batch7))),
                           Raw, None)
                          goodConfig_5 goodBatch_batch7 _))
            (sample.encodeLog sample.log4) 7).
  reflexivity.
Defined.

Lemma callback_never_fails_witness :
  ∃ s' st',
    addToChangeLog_ (codec:=sample.codec) (error:=storeError) (mkConfig 5 false false) "ch" ∅
      sample.batch7 [(3, sample.encodeLog sample.log4)] (0, Some Unavailable)
    = Some (s', st', Some Unavailable).
Proof.
  refine (proj1 (proj2 (proj2 (callback_never_fails (codec:=sample.codec) (error:=storeError)
                                 (mkConfig 5 false false))))
            "ch" ∅ sample.batch7 [(3, sample.encodeLog sample.log4)] (0, Some Unavailable)
            goodConfig_5 goodBatch_batch7).
Defined.



(** Reading the sample log after sequence 2. *)
Lemma getChangeLog_results_witness :
  ∃ log,
    getChangeLog (codec:=sample.codec) isKeyNotFound
      (store_GetRaw KeyNotFound {[channelLogDocID "ch" := sample.encodeLog sample.log4]})
      "ch" 2 = Some (Some log, None)
    ∧ Entries log
      = filter (λ e, 2 < Sequence e)
          (Entries (sample.decodeLog (sample.encodeLog sample.log4)))
    ∧ Forall (λ e, 2 < Sequence e) (Entries log).
Proof.
  refine (proj1 (getChangeLog_results (codec:=sample.codec) isKeyNotFound
                   (store_GetRaw KeyNotFound
                      {[channelLogDocID "ch" := sample.encodeLog sample.log4]}) "ch" 2)
            (sample.encodeLog sample.log4) _).
  by vm_compute.
Defined.

(** A document that holds a single byte: the read returns the log the codec
    makes of it, and a nil error. *)
Lemma getChangeLog_error_is_store_error_witness :
  getChangeLog (codec:=sample.codec) isKeyNotFound
    (store_GetRaw KeyNotFound {[channelLogDocID "ch" := [Byte.x07]]}) "ch" 0
  = Some (Some (FilterAfter 0 (sample.decodeLog [Byte.x07])), None).
Proof.
  refine (proj1 (proj2 (getChangeLog_error_is_store_error (codec:=sample.codec)
                          isKeyNotFound
                          (store_GetRaw KeyNotFound {[channelLogDocID "ch" := [Byte.x07]]})
                          "ch" 0))
            [Byte.x07] _).
  by vm_compute.
Defined.


(** * Further properties *)

(** ** The document key *)

Lemma append_inj_r (p a b : string) : p +:+ a = p +:+ b → a = b.
Proof. induction p as [|c p IH]; simpl; [done|]. intros [=]. by apply IH. Qed.

(** X1.  The document key determines the channel: two channels have the same
    log document exactly when they are the same channel. *)
Theorem channelLogDocID_inj (a b : string) :
  channelLogDocID a = channelLogDocID b ↔ a = b.
Proof.
  split; [|by intros ->]. unfold channelLogDocID. apply append_inj_r.
Qed.

(** ** Seeding a channel log *)

Section seed.
Context {codec : Codec} {error : Type}.
Variable channelName : string.

(** X2.  [addChangeLog_] never overwrites: on a store that has a document for
    the channel it adds nothing and leaves the store as it is; on a store
    that has none it stores the encoded log, and nothing else changes; and a
    second seed after a first never takes effect. *)
Theorem addChangeLog__seeds_once (s : gmap string bytes) (log1 log2 : ChangeLog) :
  (∀ v, s !! channelLogDocID channelName = Some v →
     addChangeLog_ (error:=error) channelName s (Some log1) = Some ((false, None), s))
  ∧ (s !! channelLogDocID channelName = None →
     addChangeLog_ (error:=error) channelName s (Some log1)
     = Some ((true, None), <[channelLogDocID channelName := ChangeLog_Encode log1]> s))
  ∧ (∀ r1 s1,
       addChangeLog_ (error:=error) channelName s (Some log1) = Some (r1, s1) →
       addChangeLog_ (error:=error) channelName s1 (Some log2) = Some ((false, None), s1)).
Proof.
  unfold addChangeLog_, AddRaw. simpl. split; [|split].
  - by intros v ->.
  - by intros ->.
  - intros r1 s1.
    destruct (s !! channelLogDocID channelName) as [v|] eqn:Hs; intros [= <- <-].
    + by rewrite Hs.
    + by rewrite lookup_insert_eq.
Qed.

End seed.

Lemma addChangeLog__seeds_once_witness :
  addChangeLog_ (codec:=sample.codec) (error:=storeError) "ch"
    (<[channelLogDocID "ch" := sample.encodeLog sample.log4]> ∅)
    (Some (mkChangeLog [sample.entry 9]))
  = Some ((false, None), <[channelLogDocID "ch" := sample.encodeLog sample.log4]> ∅).
Proof.
  refine (proj2 (proj2 (addChangeLog__seeds_once (codec:=sample.codec) (error:=storeError)
                          "ch" ∅ sample.log4 (mkChangeLog [sample.entry 9])))
            (true, None) _ _).
  reflexivity.
Defined.

(** ** More on draining the mailbox *)

Section drain_more.
Context {codec : Codec} {error : Type}.
Variable channelName : string.

(** What the blocking read consumes: idle instants and seeds, never a close. *)
Lemma readChange__consumed (io : list ioEvent) :
  ∀ (s s' : gmap string bytes) (r : option changeEntry) (io' : list ioEvent),
  readChange_ (error:=error) channelName s io = Some (r, s', io') →
  ∃ consumed,
    io = consumed ++ (if r is Some e then Send e :: io' else io')
    ∧ (Close ∉ consumed) ∧ appendsOf consumed = []
    ∧ s' = seedAll (error:=error) channelName s (seedsOf consumed)
    ∧ (if r is Some e then replacementLog e = None else ∃ rest, io' = Close :: rest).
Proof.
  induction io as [|ev io IH]; intros s s' r io' Hread; simpl in Hread; [done|].
  destruct ev as [entry| |].
  - destruct (replacementLog entry) as [log|] eqn:Hlog.
    + unfold addChangeLog_ in Hread. simpl in Hread.
      apply IH in Hread as (consumed & Hio & Hclose & Happ & -> & Hr).
      exists (Send entry :: consumed). rewrite Hio.
      rewrite appendsOf_Send, seedsOf_Send, Hlog. split; [done|].
      split; [|done]. apply not_elem_of_cons. done.
    + simplify_eq. exists []. split; [done|]. split; [apply not_elem_of_nil|done].
  - apply IH in Hread as (consumed & Hio & Hclose & Happ & -> & Hr).
    exists (Idle :: consumed). rewrite Hio. split; [done|].
    split; [|done]. apply not_elem_of_cons. done.
  - simplify_eq. exists []. split; [done|].
    split; [apply not_elem_of_nil|]. do 2 (split; [done|]). by eexists.
Qed.

(** What the non-blocking loop consumes, and why it stops. *)
Lemma readMore_consumed (io : list ioEvent) :
  ∀ (entries batch : list changeEntry) (s s' : gmap string bytes) (io' : list ioEvent),
  readMore (error:=error) channelName entries s io = Some (batch, s', io') →
  ∃ consumed,
    io = consumed ++ io' ∧ (Close ∉ consumed)
    ∧ batch = entries ++ appendsOf consumed
    ∧ (GoInt.len batch < kChannelLogWriterQueueLength →
       io' = [] ∨ (∃ rest, io' = Close :: rest) ∨ (∃ c, consumed = c ++ [Idle])).
Proof.
  induction io as [|ev io IH]; intros entries batch s s' io' Hread; simpl in Hread.
  { exists []. change (appendsOf []) with (@nil changeEntry).
    assert (batch = entries ∧ io' = []) as [-> ->]
      by (destruct (_ <? _); by simplify_eq).
    split; [done|]. split; [apply not_elem_of_nil|].
    split; [by rewrite app_nil_r|]. intros _; by left. }
  destruct (GoInt.len entries <? kChannelLogWriterQueueLength) eqn:Hroom.
  2:{ simplify_eq. apply Z.ltb_ge in Hroom. exists [].
      change (appendsOf []) with (@nil changeEntry). rewrite app_nil_r.
      split; [done|]. split; [apply not_elem_of_nil|]. split; [done|]. lia. }
  destruct ev as [entry| |].
  - destruct (replacementLog entry) as [log|] eqn:Hlog.
    + unfold addChangeLog_ in Hread. simpl in Hread.
      apply IH in Hread as (consumed & -> & Hclose & -> & Hstop).
      exists (Send entry :: consumed). rewrite appendsOf_Send, Hlog.
      split; [done|]. split; [by apply not_elem_of_cons|]. split; [done|].
      intros Hlt. destruct (Hstop Hlt) as [?|[?|[c ->]]]; [by left|by right; left|].
      right; right. by exists (Send entry :: c).
    + apply IH in Hread as (consumed & -> & Hclose & -> & Hstop).
      exists (Send entry :: consumed). rewrite appendsOf_Send, Hlog, <-app_assoc.
      split; [done|]. split; [by apply not_elem_of_cons|]. split; [done|].
      intros Hlt. rewrite app_assoc in Hlt. destruct (Hstop Hlt) as [?|[?|[c ->]]]; [by left|by right; left|].
      right; right. by exists (Send entry :: c).
  - simplify_eq. exists [Idle]. change (appendsOf [Idle]) with (@nil changeEntry).
    rewrite app_nil_r.
    split; [done|]. split; [|split; [done|]].
    + apply not_elem_of_cons. split; [done|apply not_elem_of_nil].
    + intros _. right; right. by exists [].
  - simplify_eq. exists []. change (appendsOf []) with (@nil changeEntry).
    rewrite app_nil_r.
    split; [done|]. split; [apply not_elem_of_nil|]. split; [done|].
    intros _. right; left. by eexists.
Qed.

(** A drain that returns a batch, with what it consumed. *)
Lemma readChanges__consumed (s s' : gmap string bytes) (io io' : list ioEvent)
    (batch : list changeEntry) :
  readChanges_ (error:=error) channelName s io = Some (Some batch, s', io') →
  ∃ consumed,
    io = consumed ++ io' ∧ (Close ∉ consumed) ∧ consumed ≠ []
    ∧ batch = appendsOf consumed
    ∧ 1 ≤ GoInt.len batch ≤ kChannelLogWriterQueueLength
    ∧ (GoInt.len batch < kChannelLogWriterQueueLength →
       io' = [] ∨ (∃ rest, io' = Close :: rest) ∨ (∃ c, consumed = c ++ [Idle])).
Proof.
  unfold readChanges_. intros Hread.
  destruct (readChange_ channelName s io) as [[[entry s1] io1]|] eqn:Hfirst;
    simpl in Hread; [|done].
  destruct entry as [entry|]; [|done].
  destruct (readMore channelName [entry] s1 io1) as [[[batch' s2] io2]|] eqn:Hmore;
    simpl in Hread; [|done].
  simplify_eq.
  apply readChange__consumed in Hfirst as (c1 & -> & Hc1 & Hnone & _ & Hentry).
  pose proof (readMore_Some channelName _ _ _ _ _ _ Hmore) as (c0 & _ & Hb0 & _ & Hlen).
  apply readMore_consumed in Hmore as (c2 & -> & Hc2 & -> & Hstop).
  exists (c1 ++ Send entry :: c2).
  split; [by rewrite <-app_assoc|]. split.
  { intros [?|[?|?]%elem_of_cons]%elem_of_app; done. }
  split; [by destruct c1|].
  split; [by rewrite appendsOf_app, appendsOf_Send, Hnone, Hentry|].
  split.
  { split; [unfold GoInt.len; simpl; lia|].
    apply Hlen. unfold GoInt.len, kChannelLogWriterQueueLength. simpl. lia. }
  intros Hlt. destruct (Hstop Hlt) as [?|[?|[c ->]]]; [by left|by right; left|].
  right; right. exists (c1 ++ Send entry :: c). by rewrite <-app_assoc.
Qed.

(** A drain that returns nil, with what it consumed. *)
Lemma readChanges__nil (s s' : gmap string bytes) (io io' : list ioEvent) :
  readChanges_ (error:=error) channelName s io = Some (None, s', io') →
  ∃ consumed rest,
    io = consumed ++ Close :: rest ∧ io' = Close :: rest
    ∧ (Close ∉ consumed) ∧ appendsOf consumed = []
    ∧ s' = seedAll (error:=error) channelName s (seedsOf consumed).
Proof.
  unfold readChanges_. intros Hread.
  destruct (readChange_ channelName s io) as [[[entry s1] io1]|] eqn:Hfirst;
    simpl in Hread; [|done].
  destruct entry as [entry|].
  { by destruct (readMore channelName [entry] s1 io1) as [[[? ?] ?]|]. }
  simplify_eq.
  apply readChange__consumed in Hfirst as (consumed & -> & Hclose & Happ & -> & rest & ->).
  by exists consumed, rest.
Qed.

(** X3.  [readChanges_] returns nil only at the close of the channel: what it
    consumed before the close holds no append-type item and no close, the
    seeds among it have gone to the store, and the close stays at the head
    of the channel. *)
Theorem readChanges__closed (s s' : gmap string bytes) (io io' : list ioEvent) :
  readChanges_ (error:=error) channelName s io = Some (None, s', io') →
  ∃ consumed rest,
    io = consumed ++ Close :: rest ∧ io' = Close :: rest
    ∧ (Close ∉ consumed) ∧ appendsOf consumed = []
    ∧ s' = seedAll (error:=error) channelName s (seedsOf consumed).
Proof. apply readChanges__nil. Qed.

(** X4.  [readChanges_] reads all available changes: a batch of fewer than
    1000 entries ends where the channel had nothing buffered (an idle
    instant, or nothing more at all) or was closed; and the drain never goes
    past a close. *)
Theorem readChanges__all_available (s s' : gmap string bytes) (io io' : list ioEvent)
    (batch : list changeEntry) :
  readChanges_ (error:=error) channelName s io = Some (Some batch, s', io') →
  ∃ consumed,
    io = consumed ++ io' ∧ batch = appendsOf consumed ∧ (Close ∉ consumed)
    ∧ (GoInt.len batch < kChannelLogWriterQueueLength →
       io' = [] ∨ (∃ rest, io' = Close :: rest) ∨ (∃ c, consumed = c ++ [Idle])).
Proof.
  intros (consumed & ? & ? & ? & ? & ? & ?)%readChanges__consumed.
  by exists consumed.
Qed.

End drain_more.

Section drain_capacity.
Context {codec : Codec} {error : Type}.
Variable channelName : string.

Lemma readMore_full (entries : list changeEntry) (s : gmap string bytes)
    (io : list ioEvent) :
  kChannelLogWriterQueueLength ≤ GoInt.len entries →
  readMore (error:=error) channelName entries s io = Some (entries, s, io).
Proof.
  intros Hfull.
  assert ((GoInt.len entries <? kChannelLogWriterQueueLength) = false) as Hcond
    by (apply Z.ltb_ge; lia).
  destruct io; simpl; by rewrite Hcond.
Qed.

Lemma readMore_sends (items : list changeEntry) (rest : list ioEvent)
    (s : gmap string bytes) :
  ∀ entries : list changeEntry,
  Forall (λ e, replacementLog e = None) items →
  GoInt.len entries ≤ kChannelLogWriterQueueLength →
  kChannelLogWriterQueueLength ≤ GoInt.len entries + GoInt.len items →
  let k := Z.to_nat (kChannelLogWriterQueueLength - GoInt.len entries) in
  readMore (error:=error) channelName entries s ((Send <$> items) ++ rest)
  = Some (entries ++ take k items, s, (Send <$> drop k items) ++ rest).
Proof.
  induction items as [|e items IH]; intros entries Happ Hle Hge k.
  { unfold GoInt.len in *. simpl in *.
    rewrite take_nil, drop_nil, app_nil_r. simpl.
    apply readMore_full. unfold GoInt.len. lia. }
  destruct (decide (GoInt.len entries = kChannelLogWriterQueueLength)) as [Hfull|Hroom].
  { subst k. rewrite Hfull, Z.sub_diag. change (Z.to_nat 0) with 0%nat.
    rewrite take_0, drop_0, app_nil_r. apply readMore_full. lia. }
  apply Forall_cons in Happ as [He Happ].
  simpl. replace (GoInt.len entries <? kChannelLogWriterQueueLength) with true
    by (symmetry; apply Z.ltb_lt; lia).
  rewrite He.
  assert (Hlen : GoInt.len (entries ++ [e]) = GoInt.len entries + 1).
  { unfold GoInt.len. rewrite length_app. simpl. lia. }
  rewrite IH; [|done|lia|].
  2:{ unfold GoInt.len in *. simpl in Hge. lia. }
  rewrite Hlen.
  replace k with (S (Z.to_nat (kChannelLogWriterQueueLength - (GoInt.len entries + 1))))
    by (subst k; lia).
  simpl. by rewrite <-app_assoc.
Qed.

(** X5.  The batch is cut at the length of the mailbox: when at least
    [kChannelLogWriterQueueLength] append-type items are buffered, a drain
    returns exactly the first 1000 of them, in arrival order, and leaves the
    others in the channel for the next drain. *)
Theorem readChanges__capacity (s : gmap string bytes) (items : list changeEntry)
    (rest : list ioEvent) :
  Forall (λ e, replacementLog e = None) items →
  kChannelLogWriterQueueLength ≤ GoInt.len items →
  let k := Z.to_nat kChannelLogWriterQueueLength in
  readChanges_ (error:=error) channelName s ((Send <$> items) ++ rest)
  = Some (Some (take k items), s, (Send <$> drop k items) ++ rest).
Proof.
  intros Happ Hlen k.
  destruct items as [|e items].
  { unfold GoInt.len, kChannelLogWriterQueueLength in Hlen. simpl in Hlen. lia. }
  apply Forall_cons in Happ as [He Happ].
  unfold readChanges_. rewrite fmap_cons, <-app_comm_cons.
  cbn -[readMore]. rewrite He. cbn -[readMore].
  rewrite (readMore_sends items rest s [e] Happ).
  - simpl. subst k. unfold kChannelLogWriterQueueLength, GoInt.len. simpl.
    replace (Z.to_nat 1000) with (S (Z.to_nat (1000 - 1))) by lia. done.
  - unfold kChannelLogWriterQueueLength, GoInt.len. simpl. lia.
  - unfold kChannelLogWriterQueueLength, GoInt.len in *. simpl in *. lia.
Qed.

End drain_capacity.

(** ** More on the commit *)

Section commit_more.
Context {codec : Codec} {error : Type}.
Variable cfg : Config.

(** An invocation on the captured variables an earlier invocation left
    returns what it would have returned on the original ones. *)
Lemma callback_after_invocation (st st' : captured) (cv : bytes) (r : Z)
    (res : bytes * WriteOptions * option error) :
  goodConfig cfg → goodBatch (entries st) →
  callback cfg st cv r = Some (st', res) →
  ∀ cv2 r2,
    returned (callback (error:=error) cfg st' cv2 r2) = returned (callback cfg st cv2 r2).
Proof.
  intros Hcfg Hbatch Hcb cv2 r2.
  pose proof (callback_entries cfg _ _ _ _ _ Hcfg Hbatch Hcb) as Hentries.
  pose proof (callback_goodBatch cfg _ _ _ _ _ Hcfg Hbatch Hcb) as Hbatch'.
  set (numToKeep := MaxChangeLogLength cfg - GoInt.len (entries st)).
  destruct (decide (numToKeep < 0)) as [Hneg|Hpos].
  - unfold returned.
    rewrite (callback_case_A cfg st cv2 r2 Hcfg Hbatch) by (right; fold numToKeep; lia).
    assert (Hlen' : GoInt.len (entries st') = MaxChangeLogLength cfg).
    { rewrite Hentries. unfold GoInt.len in *. rewrite length_drop.
      unfold goodConfig in Hcfg. subst numToKeep. unfold GoInt.len in *. lia. }
    rewrite (callback_case_A cfg st' cv2 r2 Hcfg Hbatch') by (right; lia).
    simpl. rewrite Hlen'.
    replace (Z.to_nat (- (MaxChangeLogLength cfg - MaxChangeLogLength cfg))) with 0%nat by lia.
    rewrite drop_0, Hentries. fold numToKeep.
    by replace (- numToKeep) with (GoInt.len (entries st) - MaxChangeLogLength cfg)
      by (subst numToKeep; lia).
  - apply callback_reads_entries. rewrite Hentries.
    by replace (Z.to_nat _) with 0%nat by (subst numToKeep; lia).
Qed.

Lemma WriteUpdate_last_value (k : string) (conflicts : list (Z * bytes))
    (final : Z * option error) :
  ∀ (s : gmap string bytes) (st st0 : captured),
  goodConfig cfg → goodBatch (entries st) → goodBatch (entries st0) →
  (∀ cv r, returned (callback (error:=error) cfg st cv r) = returned (callback cfg st0 cv r)) →
  outcome (WriteUpdate (callback cfg) k s st conflicts final)
  = outcome (WriteUpdate (callback cfg) k (lastValue k s conflicts) st0 [] final).
Proof.
  induction conflicts as [|[o other] rest IH]; intros s st st0 Hcfg Hb Hb0 Hsame.
  - simpl. specialize (Hsame (default [] (s !! k)) final.1).
    destruct (callback_returns (error:=error) cfg st (default [] (s !! k)) final.1 Hcfg Hb)
      as (st1 & out1 & Hcb1).
    destruct (callback_returns (error:=error) cfg st0 (default [] (s !! k)) final.1 Hcfg Hb0)
      as (st2 & out2 & Hcb2).
    rewrite Hcb1, Hcb2 in Hsame |- *. unfold returned in Hsame. simpl in Hsame.
    simplify_eq. simpl. unfold outcome. by destruct (final.2).
  - simpl.
    destruct (callback_returns (error:=error) cfg st (default [] (s !! k)) o Hcfg Hb)
      as (st1 & out1 & Hcb1).
    rewrite Hcb1. simpl. apply IH; [done| |done|].
    + exact (callback_goodBatch cfg _ _ _ _ _ Hcfg Hb Hcb1).
    + intros cv r. rewrite <-Hsame.
      exact (callback_after_invocation _ _ _ _ _ Hcfg Hb Hcb1 cv r).
Qed.

(** X9.  Lost races leave no trace in a commit: whatever values other writers
    stored while the commit was retried, the document the commit leaves and
    the error it returns are those of a commit that meets no conflict on the
    store as the last of those writers left it. *)
Theorem addToChangeLog__last_value (channelName : string) (s : gmap string bytes)
    (es : list changeEntry) (conflicts : list (Z * bytes)) (final : Z * option error) :
  goodConfig cfg → goodBatch es →
  outcome (addToChangeLog_ cfg channelName s es conflicts final)
  = outcome (addToChangeLog_ cfg channelName
               (lastValue (channelLogDocID channelName) s conflicts) es [] final).
Proof.
  intros Hcfg Hbatch. unfold addToChangeLog_.
  by apply WriteUpdate_last_value.
Qed.

(** X13.  The size thresholds of the compaction heuristic, with
    [AlwaysCompactChangeLog] off and outside Case A: on a document of at most
    20000 bytes every draw appends, so the document is never rewritten; on a
    document of at least 500000 bytes every draw of [rand.Intn(100)] decides
    for the full update. *)
Theorem compaction_thresholds (st : captured) (cv : bytes) (r : Z) :
  goodConfig cfg → goodBatch (entries st) →
  AlwaysCompactChangeLog cfg = false →
  GoInt.len cv ≠ 0 → 0 < MaxChangeLogLength cfg - GoInt.len (entries st) →
  (GoInt.len cv ≤ 20000 →
   returned (callback (error:=error) cfg st cv r)
   = Some (cv ++ batchBytes (entries st), Raw, None))
  ∧ (500000 ≤ GoInt.len cv → 0 ≤ r < 100 →
     fullUpdateDecision cfg cv r = true
     ∧ ∀ st' res, callback (error:=error) cfg st cv r = Some (st', res) →
                  fullUpdateAttempts st' = GoInt.add (fullUpdateAttempts st) 1).
Proof.
  intros Hcfg Hbatch Hoff Hcv Hkeep. split.
  - intros Hsmall.
    rewrite (callback_case_BC (error:=error) cfg st cv r Hcfg Hbatch Hcv Hkeep).
    unfold fullUpdateDecision. rewrite Hoff, Z.gtb_ltb.
    by replace (20000 <? GoInt.len cv) with false by (symmetry; apply Z.ltb_ge; lia).
  - intros Hbig Hr.
    assert (Hd : fullUpdateDecision cfg cv r = true).
    { unfold fullUpdateDecision. rewrite Hoff, Z.gtb_ltb. simpl.
      apply andb_true_iff. split; [apply Z.ltb_lt; lia|].
      apply Z.ltb_lt. rewrite quot_nonneg by lia.
      assert (100 ≤ GoInt.len cv `div` 5000) by (apply Z.div_le_lower_bound; lia).
      lia. }
    split; [done|]. intros st' res. unfold callback, appendEncoded. simpl.
    destruct Hbatch as [Hlen Hsome]. rewrite sub_len_small by done.
    replace (GoInt.len cv =? 0) with false by (symmetry; by apply Z.eqb_neq).
    replace (_ <=? 0) with false by (symmetry; apply Z.leb_gt; lia).
    rewrite Hd. simpl.
    destruct (TruncateEncodedChangeLog _ _ _) as [removed newValue]. simpl.
    rewrite encodeAll_Some by done. simpl.
    destruct (removed >? 0); by intros [= <- _].
Qed.

End commit_more.

(** ** The writer's goroutine *)

Lemma first_Close_split (consumed : list ioEvent) :
  ∀ pre rest io1 : list ioEvent,
  (Close ∉ pre) → (Close ∉ consumed) →
  pre ++ Close :: rest = consumed ++ io1 →
  ∃ pre', pre = consumed ++ pre' ∧ io1 = pre' ++ Close :: rest.
Proof.
  induction consumed as [|c cs IH]; intros pre rest io1 Hpre Hcons Heq; simpl in Heq.
  { by exists pre. }
  apply not_elem_of_cons in Hcons as [Hc Hcs].
  destruct pre as [|p ps]; simpl in Heq; simplify_eq.
  apply not_elem_of_cons in Hpre as [_ Hps].
  destruct (IH ps rest io1 Hps Hcs) as (pre' & -> & ->); [done|].
  by exists pre'.
Qed.

Lemma appendsOf_logEntry (evs : list ioEvent) :
  Forall pendingWrite (omap sent evs) →
  Forall (λ e, is_Some (logEntry e)) (appendsOf evs).
Proof.
  intros Hwf. apply Forall_forall. intros e [He Hno]%appendsOf_sent.
  rewrite Forall_forall in Hwf.
  destruct (Hwf e He) as [[Hle _]|[_ Hrl]]; [done|].
  rewrite Hno in Hrl. by destruct Hrl.
Qed.

Section frame.
Context {codec : Codec} {error : Type}.

Lemma seedAll_frame (channelName k : string) (logs : list ChangeLog) :
  ∀ s : gmap string bytes,
  k ≠ channelLogDocID channelName →
  seedAll (error:=error) channelName s logs !! k = s !! k.
Proof.
  induction logs as [|log logs IH]; intros s Hk; simpl; [done|].
  rewrite IH by done. unfold AddRaw.
  destruct (s !! channelLogDocID channelName); simpl; [done|].
  by rewrite lookup_insert_ne.
Qed.

Lemma lastValue_frame {O : Type} (k k' : string) (conflicts : list (O * bytes)) :
  ∀ s : gmap string bytes, k' ≠ k → lastValue k s conflicts !! k' = s !! k'.
Proof.
  induction conflicts as [|c conflicts IH]; intros s Hk; simpl; [done|].
  unfold lastValue in *. simpl. rewrite IH by done. by rewrite lookup_insert_ne.
Qed.

(** The store's atomic update writes to its key alone. *)
Lemma WriteUpdate_frame {St O : Type}
    (cb : St → bytes → O → option (St * (bytes * WriteOptions * option error)))
    (k k' : string) (conflicts : list (O * bytes)) (final : O * option error) :
  ∀ (s s' : gmap string bytes) (st st' : St) (err : option error),
  WriteUpdate cb k s st conflicts final = Some (s', st', err) →
  k' ≠ k → s' !! k' = s !! k'.
Proof.
  induction conflicts as [|[o other] rest IH]; intros s s' st st' err; simpl.
  - destruct (cb st (default [] (s !! k)) final.1) as [[st1 [[v opts] [e|]]]|];
      simpl; [by intros [= <- _ _]| |done].
    destruct (final.2); intros [= <- _ _] Hk; [done|].
    by rewrite lookup_insert_ne.
  - destruct (cb st (default [] (s !! k)) o) as [[st1 [[v opts] [e|]]]|];
      simpl; [by intros [= <- _ _]| |done].
    intros Hwu Hk. rewrite (IH _ _ _ _ _ Hwu Hk). by rewrite lookup_insert_ne.
Qed.

End frame.

Section goroutine_facts.
Context {codec : Codec} {error : Type}.
Variable cfg : Config.
Variable channelName : string.
Variable sortSort : (changeEntry → changeEntry → bool) → list changeEntry → list changeEntry.

Lemma readChanges__frame (s s' : gmap string bytes) (io io' : list ioEvent)
    (r : option (list changeEntry)) (k : string) :
  readChanges_ (error:=error) channelName s io = Some (r, s', io') →
  k ≠ channelLogDocID channelName → s' !! k = s !! k.
Proof.
  unfold readChanges_. intros Hread Hk.
  destruct (readChange_ channelName s io) as [[[entry s1] io1]|] eqn:Hfirst;
    simpl in Hread; [|done].
  apply readChange__consumed in Hfirst as (c1 & _ & _ & _ & -> & _).
  destruct entry as [entry|]; [|simplify_eq; by apply seedAll_frame].
  destruct (readMore channelName [entry] _ io1) as [[[batch s2] io2]|] eqn:Hmore;
    simpl in Hread; [|done].
  simplify_eq.
  apply readMore_Some in Hmore as (c2 & _ & _ & -> & _).
  by rewrite !seedAll_frame.
Qed.

Lemma writerIteration_frame (s s' : gmap string bytes) (io io' : list ioEvent)
    (conflicts : list (Z * bytes)) (final : Z * option error) (again : bool)
    (k : string) :
  writerIteration (error:=error) cfg channelName sortSort s io conflicts final
  = Some (s', io', again) →
  k ≠ channelLogDocID channelName → s' !! k = s !! k.
Proof.
  unfold writerIteration. intros Hit Hk.
  destruct (readChanges_ channelName s io) as [[[r s1] io1]|] eqn:Hread;
    simpl in Hit; [|done].
  pose proof (readChanges__frame _ _ _ _ _ k Hread Hk) as Hs1.
  destruct r as [batch|]; [|by simplify_eq].
  destruct (massageChanges sortSort batch) as [sorted|]; simpl in Hit; [|done].
  unfold addToChangeLog_ in Hit.
  destruct (WriteUpdate _ _ _ _ _ _) as [[[s2 st2] err]|] eqn:Hwu; simpl in Hit; [|done].
  simplify_eq. by rewrite (WriteUpdate_frame _ _ k _ _ _ _ _ _ _ Hwu Hk).
Qed.

Hypothesis Hcfg : goodConfig cfg.
Hypothesis Hsort : SortContract sortSort.

(** An iteration on pending writes returns as soon as an append-type item or
    the close of the channel is in sight. *)
Lemma writerIteration_cases (s : gmap string bytes) (io : list ioEvent)
    (conflicts : list (Z * bytes)) (final : Z * option error) :
  (∀ consumed io', io = consumed ++ io' → (Close ∉ consumed) →
     Forall pendingWrite (omap sent consumed)) →
  Close ∈ io ∨ appendsOf io ≠ [] →
  ∃ s' io' r s1,
    readChanges_ (error:=error) channelName s io = Some (r, s1, io')
    ∧ writerIteration (error:=error) cfg channelName sortSort s io conflicts final
      = Some (s', io', if r is Some _ then true else false).
Proof.
  intros Hwf Hsee. unfold writerIteration.
  destruct (readChanges__returns (error:=error) channelName s io Hsee)
    as [[[r s1] io1] Hread].
  rewrite Hread. simpl. destruct r as [batch|]; [|by exists s1, io1, None, s1].
  apply readChanges__consumed in Hread as Hcons.
  destruct Hcons as (consumed & -> & Hc & _ & -> & [_ Hlen] & _).
  pose proof (appendsOf_logEntry consumed (Hwf consumed io1 eq_refl Hc)) as Hsome.
  destruct (massageChanges_sorted sortSort Hsort (appendsOf consumed) Hsome)
    as (-> & Hperm & _). simpl.
  destruct (WriteUpdate_callback (error:=error) cfg (channelLogDocID channelName)
              conflicts final s1
              (mkCaptured false 0 0 (sortSort lessBySequence (appendsOf consumed))) Hcfg)
    as (s2 & st2 & Hwu).
  { split; simpl.
    - unfold GoInt.len in *. by rewrite Hperm.
    - by rewrite Hperm. }
  unfold addToChangeLog_. rewrite Hwu. simpl.
  by exists s2, io1, (Some (appendsOf consumed)), s1.
Qed.

End goroutine_facts.

Section goroutine_run.
Context {codec : Codec} {error : Type}.
Variable cfg : Config.
Variable channelName : string.
Variable sortSort : (changeEntry → changeEntry → bool) → list changeEntry → list changeEntry.

Lemma writerLoop_frame (sched : nat → list (Z * bytes) * (Z * option error))
    (k : string) (fuel : nat) :
  ∀ (i : nat) (s s' : gmap string bytes) (io io' : list ioEvent),
  writerLoop (error:=error) cfg channelName sortSort fuel sched i s io = Some (s', io') →
  k ≠ channelLogDocID channelName → s' !! k = s !! k.
Proof.
  induction fuel as [|fuel IH]; intros i s s' io io' Hloop Hk; simpl in Hloop; [done|].
  destruct (writerIteration cfg channelName sortSort s io (sched i).1 (sched i).2)
    as [[[s1 io1] again]|] eqn:Hit; [|done].
  pose proof (writerIteration_frame cfg channelName sortSort _ _ _ _ _ _ _ k Hit Hk) as Hs1.
  destruct again; [|by simplify_eq].
  by rewrite (IH _ _ _ _ _ Hloop Hk).
Qed.

(** X7.  The writer of a channel writes to the log document of its channel
    alone: an iteration of its goroutine leaves every other key of the
    bucket as it was, in particular the log documents of all other
    channels. *)
Theorem writerIteration_isolated (s s' : gmap string bytes) (io io' : list ioEvent)
    (conflicts : list (Z * bytes)) (final : Z * option error) (again : bool) :
  writerIteration (error:=error) cfg channelName sortSort s io conflicts final
  = Some (s', io', again) →
  (∀ k, k ≠ channelLogDocID channelName → s' !! k = s !! k)
  ∧ (∀ other, other ≠ channelName →
       s' !! channelLogDocID other = s !! channelLogDocID other).
Proof.
  intros Hit.
  assert (Hframe : ∀ k, k ≠ channelLogDocID channelName → s' !! k = s !! k).
  { intros k Hk. by eapply writerIteration_frame. }
  split; [done|]. intros other Hother. apply Hframe.
  unfold channelLogDocID. intros Heq%append_inj_r. done.
Qed.

Hypothesis Hcfg : goodConfig cfg.
Hypothesis Hsort : SortContract sortSort.

(** X6.  An iteration of the goroutine does not panic on pending writes: with
    a non-negative [MaxChangeLogLength], whatever the store's retry loop
    meets, it returns as soon as an append-type item or the close of the
    channel is in sight, and it goes on exactly when it drained a batch. *)
Theorem writerIteration_returns (s : gmap string bytes) (io : list ioEvent)
    (conflicts : list (Z * bytes)) (final : Z * option error) :
  Forall pendingWrite (omap sent io) →
  Close ∈ io ∨ appendsOf io ≠ [] →
  ∃ s' io' again,
    writerIteration (error:=error) cfg channelName sortSort s io conflicts final
    = Some (s', io', again)
    ∧ (again = true ↔
       ∃ batch s1, readChanges_ (error:=error) channelName s io = Some (Some batch, s1, io')).
Proof.
  intros Hwf Hsee.
  destruct (writerIteration_cases cfg channelName sortSort Hcfg Hsort s io conflicts final)
    as (s' & io' & r & s1 & Hread & Hit); [|done|].
  { intros consumed io' -> _. rewrite omap_app, Forall_app in Hwf. by destruct Hwf. }
  exists s', io', (if r is Some _ then true else false). split; [done|].
  rewrite Hread. destruct r as [batch|]; split; try done.
  - intros _. by exists batch, s1.
  - by intros (batch & s2 & [=]).
Qed.

Lemma writerLoop_drains_aux (sched : nat → list (Z * bytes) * (Z * option error))
    (rest : list ioEvent) (fuel : nat) :
  ∀ (i : nat) (s : gmap string bytes) (pre : list ioEvent),
  Forall pendingWrite (omap sent pre) → (Close ∉ pre) →
  (length pre < fuel)%nat →
  ∃ s', writerLoop (error:=error) cfg channelName sortSort fuel sched i s
          (pre ++ Close :: rest) = Some (s', Close :: rest).
Proof.
  induction fuel as [|fuel IH]; intros i s pre Hwf Hclose Hfuel; [lia|].
  destruct (writerIteration_cases cfg channelName sortSort Hcfg Hsort s
              (pre ++ Close :: rest) (sched i).1 (sched i).2)
    as (s1 & io1 & r & s0 & Hread & Hit).
  { intros consumed io' Hio Hc.
    destruct (first_Close_split consumed pre rest io' Hclose Hc Hio) as (pre' & -> & _).
    rewrite omap_app, Forall_app in Hwf. by destruct Hwf. }
  { left. apply elem_of_app. right. by left. }
  simpl. rewrite Hit. destruct r as [batch|].
  - apply readChanges__consumed in Hread as (consumed & Hio & Hc & Hne & _ & _ & _).
    destruct (first_Close_split consumed pre rest io1 Hclose Hc Hio) as (pre' & -> & ->).
    rewrite omap_app, Forall_app in Hwf. destruct Hwf as [_ Hwf].
    apply IH; [done| |].
    + intros Hin. apply Hclose, elem_of_app. by right.
    + rewrite length_app in Hfuel. destruct consumed; [done|]. simpl in Hfuel. lia.
  - apply readChanges__nil in Hread as (consumed & rest0 & Hio & -> & Hc & _ & _).
    destruct (first_Close_split consumed pre rest (Close :: rest0) Hclose Hc Hio)
      as (pre' & -> & Hrest).
    destruct pre' as [|p pre']; simpl in Hrest.
    + simplify_eq. by exists s1.
    + simplify_eq. exfalso. apply Hclose, elem_of_app. right. by left.
Qed.

(** X8.  Once the channel is closed the goroutine finishes, after it has
    taken everything that was sent before the close: on pending writes
    followed by the close, with as many iterations allowed as there are
    events before the close and one more, [writerLoop] returns with the
    close at the head of the channel; and the run has written to no key
    but the channel's log document. *)
Theorem writerLoop_drains (sched : nat → list (Z * bytes) * (Z * option error))
    (fuel i : nat) (s : gmap string bytes) (pre rest : list ioEvent) :
  Forall pendingWrite (omap sent pre) → (Close ∉ pre) →
  (length pre < fuel)%nat →
  ∃ s', writerLoop (error:=error) cfg channelName sortSort fuel sched i s
          (pre ++ Close :: rest) = Some (s', Close :: rest)
        ∧ ∀ k, k ≠ channelLogDocID channelName → s' !! k = s !! k.
Proof.
  intros Hwf Hclose Hfuel.
  destruct (writerLoop_drains_aux sched rest fuel i s pre Hwf Hclose Hfuel) as [s' Hloop].
  exists s'. split; [done|]. intros k Hk. by eapply writerLoop_frame.
Qed.

End goroutine_run.

(** ** More on the fan-out *)

Section fanout_more.
Context {error : Type}.
Variable cfg : Config.
Variable Removed : Z.

Lemma lookup_foldl_deliver (parentRevID : string) (l : list (string * LogEntry))
    (channel : string) :
  ∀ c : gmap string (list changeEntry),
  foldl (deliver parentRevID) c l !! channel
  = match filter (λ p, p.1 = channel) l with
    | [] => c !! channel
    | _ :: _ =>
        Some (mailbox c channel
              ++ ((λ p, addChange p.2 parentRevID) <$> filter (λ p, p.1 = channel) l))
    end.
Proof.
  induction l as [|q l IH]; intros c; simpl; [done|].
  rewrite IH, filter_cons, mailbox_deliver.
  unfold deliver at 1, addToChangeLog.
  destruct (decide (q.1 = channel)) as [Heq|Hne].
  - rewrite bool_decide_eq_true_2 by done. rewrite Heq, lookup_insert_eq.
    destruct (filter _ l); simpl; [done|]. by rewrite <-app_assoc.
  - rewrite bool_decide_eq_false_2 by done. rewrite lookup_insert_ne by done.
    by rewrite app_nil_r.
Qed.

Lemma addToChangeLogs_allSends (order : list (string * option ChannelRemoval))
    (c : gmap string (list changeEntry)) (entry : LogEntry) (parentRevID : string) :
  (addToChangeLogs (error:=error) cfg Removed order c entry parentRevID).1
  = foldl (deliver parentRevID) c (allSends cfg Removed entry order).
Proof.
  unfold addToChangeLogs, allSends.
  destruct (addToChangeLogs_range_sends Removed entry parentRevID order c entry
              (agree_refl Removed entry)) as (cur' & -> & Hcur').
  rewrite foldl_app. destruct (EnableStarChannelLog cfg); simpl; [|done].
  fold (withoutRemoved Removed cur').
  by rewrite (agree_withoutRemoved Removed cur' entry).
Qed.

(** The sends to one channel, read off the membership. *)
Lemma allSends_channel (m : gmap string (option ChannelRemoval))
    (order : list (string * option ChannelRemoval)) (entry : LogEntry)
    (parentRevID channel : string) :
  order ≡ₚ map_to_list m →
  (λ p : string * LogEntry, addChange p.2 parentRevID)
    <$> filter (λ p, p.1 = channel) (allSends cfg Removed entry order)
  = itemsFor cfg Removed m entry parentRevID channel.
Proof.
  intros Horder. unfold allSends, itemsFor. rewrite filter_app, fmap_app. f_equal.
  - assert (Hnd : NoDup order.*1).
    { rewrite Horder. apply NoDup_fst_map_to_list. }
    destruct (sends_channel Removed entry order channel Hnd) as [Hin Hout].
    destruct (m !! channel) as [removal|] eqn:Hm; simpl.
    + rewrite (Hin removal) by (by rewrite Horder, elem_of_map_to_list).
      by destruct (copyFor Removed entry removal).
    + rewrite Hout; [done|].
      intros ([ch removal] & -> & Hp)%list_elem_of_fmap.
      rewrite Horder, elem_of_map_to_list in Hp. simpl in Hm. congruence.
  - destruct (EnableStarChannelLog cfg); simpl; [|done].
    rewrite filter_cons. simpl.
    destruct (decide ("*" = channel)) as [<-|Hne].
    + by rewrite bool_decide_eq_true_2.
    + by rewrite bool_decide_eq_false_2, filter_nil.
Qed.

Lemma addToChangeLogs_lookup (m : gmap string (option ChannelRemoval))
    (order : list (string * option ChannelRemoval))
    (c : gmap string (list changeEntry)) (entry : LogEntry)
    (parentRevID channel : string) :
  order ≡ₚ map_to_list m →
  (addToChangeLogs (error:=error) cfg Removed order c entry parentRevID).1 !! channel
  = match itemsFor cfg Removed m entry parentRevID channel with
    | [] => c !! channel
    | _ :: _ =>
        Some (mailbox c channel ++ itemsFor cfg Removed m entry parentRevID channel)
    end.
Proof.
  intros Horder.
  rewrite addToChangeLogs_allSends, lookup_foldl_deliver.
  rewrite <-(allSends_channel m order entry parentRevID channel Horder).
  by destruct (filter _ _).
Qed.

(** X11.  Writers are created on first use only: after a call the channel
    writers are those there were before, their mailboxes unchanged unless
    the call sent them something, and those of the channels the call sent
    to; a channel of the membership that is skipped for a stale removal gets
    no writer. *)
Theorem addToChangeLogs_lazy (m : gmap string (option ChannelRemoval))
    (order : list (string * option ChannelRemoval))
    (c : gmap string (list changeEntry)) (entry : LogEntry) (parentRevID : string) :
  order ≡ₚ map_to_list m →
  let c' := (addToChangeLogs (error:=error) cfg Removed order c entry parentRevID).1 in
  (∀ channel,
     c' !! channel
     = match itemsFor cfg Removed m entry parentRevID channel with
       | [] => c !! channel
       | _ :: _ =>
           Some (mailbox c channel ++ itemsFor cfg Removed m entry parentRevID channel)
       end)
  ∧ (∀ channel r, m !! channel = Some (Some r) → Seq r ≠ Sequence entry →
       channel ≠ "*" ∨ EnableStarChannelLog cfg = false →
       c' !! channel = c !! channel).
Proof.
  intros Horder c'.
  assert (Hlook := λ channel,
            addToChangeLogs_lookup m order c entry parentRevID channel Horder).
  split; [done|]. intros channel r Hm Hstale Hnostar.
  subst c'. rewrite Hlook. unfold itemsFor. rewrite Hm. simpl.
  rewrite bool_decide_eq_false_2 by done.
  replace (EnableStarChannelLog cfg && bool_decide (channel = "*")) with false; [done|].
  destruct Hnostar as [Hne| ->]; [|done].
  by rewrite bool_decide_eq_false_2, andb_false_r.
Qed.

(** X10.  The order in which [range] visits the membership map does not show
    in the result: two calls that differ in that order alone leave the same
    writers with the same mailboxes. *)
Theorem addToChangeLogs_any_order (m : gmap string (option ChannelRemoval))
    (order1 order2 : list (string * option ChannelRemoval))
    (c : gmap string (list changeEntry)) (entry : LogEntry) (parentRevID : string) :
  order1 ≡ₚ map_to_list m → order2 ≡ₚ map_to_list m →
  addToChangeLogs (error:=error) cfg Removed order1 c entry parentRevID
  = addToChangeLogs (error:=error) cfg Removed order2 c entry parentRevID.
Proof.
  intros H1 H2.
  assert (Hfst : (addToChangeLogs (error:=error) cfg Removed order1 c entry parentRevID).1
                 = (addToChangeLogs (error:=error) cfg Removed order2 c entry parentRevID).1).
  { apply map_eq. intros channel.
    by rewrite (addToChangeLogs_lookup m order1), (addToChangeLogs_lookup m order2). }
  revert Hfst. unfold addToChangeLogs.
  destruct (addToChangeLogs_range Removed order1 c entry parentRevID) as [c1 e1].
  destruct (addToChangeLogs_range Removed order2 c entry parentRevID) as [c2 e2].
  simpl. by intros ->.
Qed.

Lemma itemsFor_appends (m : gmap string (option ChannelRemoval)) (entry : LogEntry)
    (parentRevID channel : string) :
  Forall (λ e, is_Some (logEntry e) ∧ replacementLog e = None)
    (itemsFor cfg Removed m entry parentRevID channel).
Proof.
  unfold itemsFor. apply Forall_app. split.
  - destruct (m !! channel ≫= copyFor Removed entry); repeat constructor. by eexists.
  - destruct (_ && _); repeat constructor. by eexists.
Qed.

Lemma addToChangeLogs_mailbox_wf (m : gmap string (option ChannelRemoval))
    (order : list (string * option ChannelRemoval))
    (c : gmap string (list changeEntry)) (entry : LogEntry)
    (parentRevID channel : string) :
  order ≡ₚ map_to_list m →
  Forall pendingWrite (mailbox c channel) →
  Forall pendingWrite
    (mailbox (addToChangeLogs (error:=error) cfg Removed order c entry parentRevID).1
       channel).
Proof.
  intros Horder Hwf.
  rewrite (addToChangeLogs_mailbox cfg Removed m order c entry parentRevID channel Horder).
  apply Forall_app. split; [done|].
  eapply Forall_impl; [apply itemsFor_appends|]. intros e [? ?]. by left.
Qed.

(** X12.  What a call puts into the mailboxes are append-type pending writes:
    if every mailbox held pending writes before the call, every mailbox
    holds pending writes after it, and every item the call added has a
    [logEntry] and no [replacementLog]. *)
Theorem addToChangeLogs_pendingWrites (m : gmap string (option ChannelRemoval))
    (order : list (string * option ChannelRemoval))
    (c : gmap string (list changeEntry)) (entry : LogEntry) (parentRevID : string) :
  order ≡ₚ map_to_list m →
  (∀ channel, Forall pendingWrite (mailbox c channel)) →
  let c' := (addToChangeLogs (error:=error) cfg Removed order c entry parentRevID).1 in
  ∀ channel,
    Forall pendingWrite (mailbox c' channel)
    ∧ ∃ added, mailbox c' channel = mailbox c channel ++ added
               ∧ Forall (λ e, is_Some (logEntry e) ∧ replacementLog e = None) added.
Proof.
  intros Horder Hwf c' channel. subst c'.
  split; [by apply (addToChangeLogs_mailbox_wf m)|].
  rewrite (addToChangeLogs_mailbox cfg Removed m order c entry parentRevID channel Horder).
  eexists. split; [done|]. apply itemsFor_appends.
Qed.

End fanout_more.

(** ** From the fan-out to the writer *)

Section fanout_to_writer.
Context {codec : Codec} {error : Type}.
Variable cfg : Config.
Variable Removed : Z.
Variable sortSort : (changeEntry → changeEntry → bool) → list changeEntry → list changeEntry.

(** X15.  Fan-out, then stop: after a call to [addToChangeLogs] on writers
    whose mailboxes hold pending writes, the goroutine of any channel, given
    the items of its mailbox at whatever pace (idle instants between them)
    and then the close of [stop], drains them all and finishes without
    panic. *)
Theorem fanout_then_stop (m : gmap string (option ChannelRemoval))
    (order : list (string * option ChannelRemoval))
    (c : gmap string (list changeEntry)) (entry : LogEntry) (parentRevID : string)
    (channel : string) (pre : list ioEvent)
    (sched : nat → list (Z * bytes) * (Z * option error))
    (fuel i : nat) (s : gmap string bytes) :
  goodConfig cfg → SortContract sortSort →
  order ≡ₚ map_to_list m →
  Forall pendingWrite (mailbox c channel) →
  omap sent pre
  = mailbox (addToChangeLogs (error:=error) cfg Removed order c entry parentRevID).1 channel →
  (Close ∉ pre) → (length pre < fuel)%nat →
  ∃ s', writerLoop (error:=error) cfg channel sortSort fuel sched i s (pre ++ [Close])
        = Some (s', [Close]).
Proof.
  intros Hcfg Hsort Horder Hwf Hpre Hclose Hfuel.
  apply writerLoop_drains_aux; [done..| |done|done].
  rewrite Hpre. by apply (addToChangeLogs_mailbox_wf cfg Removed m).
Qed.

End fanout_to_writer.

(** ** More on sorting the batch *)

Lemma ascending_NoDup (l : list changeEntry) :
  StronglySorted (λ a b, sequenceOf a < sequenceOf b) l →
  NoDup (sequenceOf <$> l)
  ∧ StronglySorted (λ a b, sequenceOf a ≤ sequenceOf b) l.
Proof.
  induction 1 as [|x l Hl [IHnd IHle] Hx]; simpl.
  { split; constructor. }
  split.
  - apply NoDup_cons. split; [|done].
    intros (y & Heq & Hy)%list_elem_of_fmap.
    rewrite Forall_forall in Hx. specialize (Hx y Hy). lia.
  - constructor; [done|]. eapply Forall_impl; [exact Hx|]. simpl. lia.
Qed.

(** X14.  A batch that arrives in ascending order of sequence, without
    repeated sequences, leaves [massageChanges] as it came, whatever
    [sort.Sort] does within its contract. *)
Theorem massageChanges_keeps_ascending
    (sortSort : (changeEntry → changeEntry → bool) → list changeEntry → list changeEntry)
    (changes : list changeEntry) :
  SortContract sortSort →
  Forall (λ e, is_Some (logEntry e)) changes →
  StronglySorted (λ a b, sequenceOf a < sequenceOf b) changes →
  massageChanges sortSort changes = Some changes.
Proof.
  intros Hsort Hsome Hasc.
  destruct (massageChanges_sorted sortSort Hsort changes Hsome) as (-> & Hperm & Hsorted).
  destruct (ascending_NoDup changes Hasc) as [Hnd Hle].
  f_equal. symmetry. by apply sorted_by_sequence_unique.
Qed.

(** ** Reading after a commit *)

Section commit_then_read.
Context {codec : Codec} {error : Type}.
Variable cfg : Config.
Variable IsDocNotFoundError : error → bool.
Variable notFound : error.

Lemma WriteUpdate_written {St O : Type}
    (cb : St → bytes → O → option (St * (bytes * WriteOptions * option error)))
    (k : string) (conflicts : list (O * bytes)) (final : O * option error) :
  ∀ (s s' : gmap string bytes) (st st' : St),
  WriteUpdate cb k s st conflicts final = Some (s', st', None) →
  ∃ st0 v opts, cb st0 (default [] (lastValue k s conflicts !! k)) final.1
                = Some (st', (v, opts, None))
                ∧ s' = <[k := v]> (lastValue k s conflicts).
Proof.
  induction conflicts as [|[o other] rest IH]; intros s s' st st'; simpl.
  - destruct (cb st (default [] (s !! k)) final.1) as [[st1 [[v opts] [e|]]]|] eqn:Hcb;
      simpl; [done| |done].
    destruct (final.2); intros [= <- <-]. by exists st, v, opts.
  - destruct (cb st (default [] (s !! k)) o) as [[st1 [[v opts] [e|]]]|];
      simpl; [done| |done].
    intros Hwu. apply IH in Hwu as (st0 & v' & opts' & Hcb & ->).
    by exists st0, v', opts'.
Qed.

(** X16.  A commit and the read path.  A commit to one channel does not
    change what [getChangeLog] returns for any other channel; and after a
    commit that returned a nil error the channel's document is what the
    last invocation of the callback returned, so that [getChangeLog] on the
    channel returns the log decoded from those bytes, not a missing log. *)
Theorem commit_then_read (channelName : string) (s s' : gmap string bytes)
    (es : list changeEntry) (conflicts : list (Z * bytes)) (final : Z * option error)
    (st' : captured) (err : option error) :
  addToChangeLog_ cfg channelName s es conflicts final = Some (s', st', err) →
  (∀ other afterSeq, other ≠ channelName →
     getChangeLog IsDocNotFoundError (store_GetRaw notFound s') other afterSeq
     = getChangeLog IsDocNotFoundError (store_GetRaw notFound s) other afterSeq)
  ∧ (err = None →
     ∃ st0 v opts,
       callback (error:=error) cfg st0
         (default [] (lastValue (channelLogDocID channelName) s conflicts
                      !! channelLogDocID channelName))
         final.1 = Some (st', (v, opts, None))
       ∧ s' !! channelLogDocID channelName = Some v
       ∧ ∀ afterSeq,
           getChangeLog IsDocNotFoundError (store_GetRaw notFound s') channelName afterSeq
           = Some (Some (FilterAfter afterSeq (DecodeChangeLog v)), None)).
Proof.
  unfold addToChangeLog_. intros Hwu. split.
  - intros other afterSeq Hother. unfold getChangeLog, store_GetRaw.
    rewrite (WriteUpdate_frame _ _ (channelLogDocID other) _ _ _ _ _ _ _ Hwu); [done|].
    unfold channelLogDocID. by intros Heq%append_inj_r.
  - intros ->. apply WriteUpdate_written in Hwu as (st0 & v & opts & Hcb & ->).
    exists st0, v, opts. split; [done|].
    split; [by rewrite lookup_insert_eq|].
    intros afterSeq. unfold getChangeLog, store_GetRaw.
    by rewrite lookup_insert_eq.
Qed.

End commit_then_read.

(** * Further worked examples *)

Lemma pendingWrite_change (q : Z) : pendingWrite (sample.change q).
Proof. left. split; [by eexists | done]. Defined.

Lemma pendingWrite_seed (log : ChangeLog) : pendingWrite (addChannelLog (Some log)).
Proof. right. split; [done | by eexists]. Defined.

Ltac pending_writes :=
  repeat (apply Forall_cons; split;
          [first [apply pendingWrite_seed | apply pendingWrite_change]|]);
  by apply Forall_nil.

(** A channel closed after a seed: the drain returns nil, the seed is stored. *)
Lemma readChanges__closed_witness :
  ∃ consumed rest,
    [Send (addChannelLog (Some sample.log4)); Idle; Close; Send (sample.change 1)]
    = consumed ++ Close :: rest
    ∧ [Close; Send (sample.change 1)] = Close :: rest
    ∧ (Close ∉ consumed) ∧ appendsOf consumed = []
    ∧ <[channelLogDocID "ch" := sample.encodeLog sample.log4]> ∅
      = seedAll (codec:=sample.codec) (error:=storeError) "ch" ∅ (seedsOf consumed).
Proof.
  refine (readChanges__closed (codec:=sample.codec) (error:=storeError) "ch" ∅
            (<[channelLogDocID "ch" := sample.encodeLog sample.log4]> ∅)
            [Send (addChannelLog (Some sample.log4)); Idle; Close; Send (sample.change 1)]
            [Close; Send (sample.change 1)] _).
  reflexivity.
Defined.

(** A drain that ends at an idle instant. *)
Lemma readChanges__all_available_witness :
  ∃ consumed,
    [Send (sample.change 3); Send (sample.change 1); Idle; Send (sample.change 2)]
    = consumed ++ [Send (sample.change 2)]
    ∧ [sample.change 3; sample.change 1] = appendsOf consumed ∧ (Close ∉ consumed)
    ∧ (GoInt.len [sample.change 3; sample.change 1] < kChannelLogWriterQueueLength →
       [Send (sample.change 2)] = []
       ∨ (∃ rest, [Send (sample.change 2)] = Close :: rest)
       ∨ (∃ c, consumed = c ++ [Idle])).
Proof.
  refine (readChanges__all_available (codec:=sample.codec) (error:=storeError) "ch" ∅ ∅
            [Send (sample.change 3); Send (sample.change 1); Idle; Send (sample.change 2)]
            [Send (sample.change 2)] [sample.change 3; sample.change 1] _).
  reflexivity.
Defined.

(** 1001 buffered changes: the drain takes 1000 and leaves one. *)
Lemma readChanges__capacity_witness :
  readChanges_ (codec:=sample.codec) (error:=storeError) "ch" ∅
    ((Send <$> replicate 1001 (sample.change 1)) ++ [])
  = Some (Some (take (Z.to_nat kChannelLogWriterQueueLength)
                  (replicate 1001 (sample.change 1))),
          ∅,
          (Send <$> drop (Z.to_nat kChannelLogWriterQueueLength)
                      (replicate 1001 (sample.change 1))) ++ []).
Proof.
  refine (readChanges__capacity (codec:=sample.codec) (error:=storeError) "ch" ∅
            (replicate 1001 (sample.change 1)) [] _ _).
  - by apply Forall_replicate.
  - unfold GoInt.len, kChannelLogWriterQueueLength. rewrite length_replicate. lia.
Defined.

Lemma writerIteration_returns_witness :
  ∃ s' io' again,
    writerIteration (codec:=sample.codec) (error:=storeError) (mkConfig 5 false false) "ch"
      sample.insertionSort ∅
      [Send (addChannelLog (Some sample.log4)); Send (sample.change 6); Send (sample.change 5)]
      [(3, [])] (0, Some Unavailable)
    = Some (s', io', again)
    ∧ (again = true ↔
       ∃ batch s1,
         readChanges_ (codec:=sample.codec) (error:=storeError) "ch" ∅
           [Send (addChannelLog (Some sample.log4)); Send (sample.change 6);
            Send (sample.change 5)]
         = Some (Some batch, s1, io')).
Proof.
  refine (writerIteration_returns (codec:=sample.codec) (error:=storeError)
            (mkConfig 5 false false) "ch" sample.insertionSort
            goodConfig_5 insertionSort_contract ∅
            [Send (addChannelLog (Some sample.log4)); Send (sample.change 6);
             Send (sample.change 5)]
            [(3, [])] (0, Some Unavailable) _ _).
  - simpl. pending_writes.
  - right. discriminate.
Defined.

Lemma writerIteration_isolated_witness :
  (∀ k, k ≠ channelLogDocID "ch" →
     (<[channelLogDocID "ch"
        := sample.encodeLog (mkChangeLog [sample.entry 1; sample.entry 2; sample.entry 3])]>
        (∅ : gmap string bytes)) !! k = (∅ : gmap string bytes) !! k)
  ∧ (∀ other, other ≠ "ch" →
       (<[channelLogDocID "ch"
          := sample.encodeLog (mkChangeLog [sample.entry 1; sample.entry 2; sample.entry 3])]>
          (∅ : gmap string bytes)) !! channelLogDocID other
       = (∅ : gmap string bytes) !! channelLogDocID other).
Proof.
  refine (writerIteration_isolated (codec:=sample.codec) (error:=storeError)
            (mkConfig 1000 false false) "ch" sample.insertionSort ∅ _
            [Send (sample.change 3); Send (sample.change 1); Send (sample.change 2); Idle]
            [] [] (0, None) true _).
  reflexivity.
Defined.

Lemma writerLoop_drains_witness :
  ∃ s',
    writerLoop (codec:=sample.codec) (error:=storeError) (mkConfig 5 false false) "ch"
      sample.insertionSort 5 (λ _, ([], (0, None))) 0 ∅
      ([Send (addChannelLog (Some sample.log4)); Send (sample.change 6); Idle;
        Send (sample.change 5)] ++ Close :: [])
    = Some (s', Close :: [])
    ∧ ∀ k, k ≠ channelLogDocID "ch" → s' !! k = (∅ : gmap string bytes) !! k.
Proof.
  refine (writerLoop_drains (codec:=sample.codec) (error:=storeError)
            (mkConfig 5 false false) "ch" sample.insertionSort
            goodConfig_5 insertionSort_contract (λ _, ([], (0, None))) 5 0 ∅
            [Send (addChannelLog (Some sample.log4)); Send (sample.change 6); Idle;
             Send (sample.change 5)] [] _ _ _).
  - simpl. pending_writes.
  - intros Hin. repeat (apply elem_of_cons in Hin as [Hin|Hin]; [discriminate Hin|]).
    by apply elem_of_nil in Hin.
  - simpl. lia.
Defined.

(** Two lost races, then a store that refuses the write. *)
Lemma addToChangeLog__last_value_witness :
  outcome (addToChangeLog_ (codec:=sample.codec) (error:=storeError)
             (mkConfig 5 false false) "ch" ∅ sample.batch7
             [(3, sample.encodeLog sample.log4); (9, [])] (0, Some Unavailable))
  = outcome (addToChangeLog_ (codec:=sample.codec) (error:=storeError)
               (mkConfig 5 false false) "ch"
               (lastValue (channelLogDocID "ch") ∅
                  [(3, sample.encodeLog sample.log4); (9, [])])
               sample.batch7 [] (0, Some Unavailable)).
Proof.
  exact (addToChangeLog__last_value (codec:=sample.codec) (error:=storeError)
           (mkConfig 5 false false) "ch" ∅ sample.batch7
           [(3, sample.encodeLog sample.log4); (9, [])] (0, Some Unavailable)
           goodConfig_5 goodBatch_batch7).
Defined.

Lemma compaction_thresholds_witness :
  returned (callback (codec:=sample.codec) (error:=storeError) (mkConfig 5 false false)
              (mkCaptured false 0 0 [sample.change 8]) (sample.encodeLog sample.log4) 0)
  = Some (sample.encodeLog sample.log4 ++ batchBytes (codec:=sample.codec) [sample.change 8],
          Raw, None).
Proof.
  refine (proj1 (compaction_thresholds (codec:=sample.codec) (error:=storeError)
                   (mkConfig 5 false false) (mkCaptured false 0 0 [sample.change 8])
                   (sample.encodeLog sample.log4) 0
                   goodConfig_5 (goodBatch_single 8) eq_refl _ _) _).
  - unfold GoInt.len. simpl. lia.
  - unfold GoInt.len. simpl. lia.
  - unfold GoInt.len. simpl. lia.
Defined.

Lemma massageChanges_keeps_ascending_witness :
  massageChanges sample.insertionSort sample.batch7 = Some sample.batch7.
Proof.
  refine (massageChanges_keeps_ascending sample.insertionSort sample.batch7
            insertionSort_contract (proj2 goodBatch_batch7) _).
  repeat constructor; unfold sequenceOf; simpl; lia.
Defined.

Lemma addToChangeLogs_any_order_witness :
  addToChangeLogs (error:=storeError) (mkConfig 1000 false true) 2
    (map_to_list sample.membership) ∅ (sample.entry 7) "0-z"
  = addToChangeLogs (error:=storeError) (mkConfig 1000 false true) 2
      (reverse (map_to_list sample.membership)) ∅ (sample.entry 7) "0-z".
Proof.
  refine (addToChangeLogs_any_order (error:=storeError) (mkConfig 1000 false true) 2
            sample.membership (map_to_list sample.membership)
            (reverse (map_to_list sample.membership)) ∅ (sample.entry 7) "0-z" _ _).
  - reflexivity.
  - apply reverse_Permutation.
Defined.

(** A change at sequence 8: channel "b", removed at 7, is skipped and gets no
    writer. *)
Lemma addToChangeLogs_lazy_witness :
  (addToChangeLogs (error:=storeError) (mkConfig 1000 false true) 2
     (map_to_list sample.membership) ∅ (sample.entry 8) "0-z").1 !! "b"
  = (∅ : gmap string (list changeEntry)) !! "b".
Proof.
  refine (proj2 (addToChangeLogs_lazy (error:=storeError) (mkConfig 1000 false true) 2
                   sample.membership (map_to_list sample.membership) ∅
                   (sample.entry 8) "0-z" _)
            "b" (mkChannelRemoval 7) _ _ _).
  - reflexivity.
  - by vm_compute.
  - simpl. lia.
  - by left.
Defined.

Lemma addToChangeLogs_pendingWrites_witness :
  Forall pendingWrite
    (mailbox (addToChangeLogs (error:=storeError) (mkConfig 1000 false true) 2
                (map_to_list sample.membership) ∅ (sample.entry 7) "0-z").1 "b").
Proof.
  refine (proj1 (addToChangeLogs_pendingWrites (error:=storeError)
                   (mkConfig 1000 false true) 2 sample.membership
                   (map_to_list sample.membership) ∅ (sample.entry 7) "0-z" _ _ "b")).
  - reflexivity.
  - intros channel. unfold mailbox. rewrite lookup_empty. by apply Forall_nil.
Defined.

Lemma fanout_then_stop_witness :
  ∃ s',
    writerLoop (codec:=sample.codec) (error:=storeError) (mkConfig 1000 false true) "b"
      sample.insertionSort 3 (λ _, ([], (0, None))) 0 ∅
      ([Idle; Send (addChange (withRemoved 2 (sample.entry 7)) "0-z")] ++ [Close])
    = Some (s', [Close]).
Proof.
  refine (fanout_then_stop (codec:=sample.codec) (error:=storeError)
            (mkConfig 1000 false true) 2 sample.insertionSort sample.membership
            (map_to_list sample.membership) ∅ (sample.entry 7) "0-z" "b"
            [Idle; Send (addChange (withRemoved 2 (sample.entry 7)) "0-z")]
            (λ _, ([], (0, None))) 3 0 ∅
            (goodConfig_small 1000 false true _) insertionSort_contract _ _ _ _ _).
  - lia.
  - reflexivity.
  - unfold mailbox. rewrite lookup_empty. by apply Forall_nil.
  - by vm_compute.
  - intros Hin. repeat (apply elem_of_cons in Hin as [Hin|Hin]; [discriminate Hin|]).
    by apply elem_of_nil in Hin.
  - simpl. lia.
Defined.

(** A first commit, then reads of this channel and of another. *)
Lemma commit_then_read_witness :
  getChangeLog (codec:=sample.codec) isKeyNotFound
    (store_GetRaw KeyNotFound
       (<[channelLogDocID "ch" := sample.encodeLog (mkChangeLog [sample.entry 1])]> ∅))
    "other" 0
  = getChangeLog (codec:=sample.codec) isKeyNotFound (store_GetRaw KeyNotFound ∅)
      "other" 0.
Proof.
  refine (proj1 (commit_then_read (codec:=sample.codec) (error:=storeError)
                   (mkConfig 5 false false) isKeyNotFound KeyNotFound "ch" ∅
                   (<[channelLogDocID "ch" := sample.encodeLog (mkChangeLog [sample.entry 1])]> ∅)
                   [sample.change 1] [] (0, None)
                   (mkCaptured false 0 0 [sample.change 1]) None _)
            "other" 0 _).
  - reflexivity.
  - discriminate.
Defined.
